(** * globaldb: a shallow embedding of the command-line front end

    The repository holds one Go program, [cmd/globaldb.go]: it asks whether
    the node bootstraps the network, builds a libp2p host, a gossip
    broadcaster and a CRDT datastore on top of them, connects to a bootstrap
    peer and then serves a line-oriented command loop ([list], [get], [put],
    [debug], [exit]).

    The program is embedded as it is written.  Go strings are byte strings
    ([string]); [int] and [time.Duration] are [Z]; a Go [error] is the text
    of its [Error()] method and a nil error is [None]; a call that returns a
    value and an error returns a pair; a nil pointer or nil interface is
    [None] and using it panics.  Everything the program imports (the CRDT
    datastore, libp2p, the file system, the random source) is a parameter:
    the results of those calls come from an environment record and from an
    interface record for the datastore, and every call the program issues is
    appended to a trace.  Standard input is what its two readers take from
    it: the words of the two [fmt.Scanln] calls and the lines of the
    [bufio.Scanner].

    The replication core that the datastore implements is not part of the
    repository; the module [Engine] models its merge engine and sync
    processor from the specification. *)

From stdpp Require Import base strings list gmap.
From Stdlib Require Import ZArith Ascii DecimalString OrderedTypeEx.

Local Open Scope string_scope.
Local Open Scope Z_scope.

(** ** Go's [strings] and [unicode/utf8], as [main] uses them *)

Module GoStrings.

Definition byteZ (c : ascii) : Z := Z.of_N (N_of_ascii c).

Definition RuneError : Z := 0xFFFD.

(** [s[i]] for the look-ahead of the decoder: [None] past the end. *)
Definition byteAt (s : string) (i : nat) : option Z :=
  byteZ <$> String.get i s.

Definition contByte (lo hi : Z) (b : option Z) : option Z :=
  match b with
  | Some x => if (lo <=? x) && (x <=? hi) then Some x else None
  | None => None
  end.

(** [utf8.DecodeRuneInString]: the rune at the head of [s] and its width
    in bytes.  The lead byte selects the length and the range accepted for
    the second byte (the [first] and [acceptRanges] tables); a truncated or
    ill-formed sequence is [RuneError] of width 1. *)
Definition DecodeRuneInString (s : string) : Z * nat :=
  match byteAt s 0 with
  | None => (RuneError, 0%nat)
  | Some s0 =>
    if s0 <? 0x80 then (s0, 1%nat)
    else if (s0 <? 0xC2) || (0xF4 <? s0) then (RuneError, 1%nat)
    else
      let sz : nat :=
        if s0 <? 0xE0 then 2%nat else if s0 <? 0xF0 then 3%nat else 4%nat in
      let lo :=
        if s0 =? 0xE0 then 0xA0 else if s0 =? 0xF0 then 0x90 else 0x80 in
      let hi :=
        if s0 =? 0xED then 0x9F else if s0 =? 0xF4 then 0x8F else 0xBF in
      match contByte lo hi (byteAt s 1) with
      | None => (RuneError, 1%nat)
      | Some s1 =>
        if (sz <=? 2)%nat
        then (Z.lor (Z.shiftl (Z.land s0 0x1F) 6) (Z.land s1 0x3F), 2%nat)
        else
          match contByte 0x80 0xBF (byteAt s 2) with
          | None => (RuneError, 1%nat)
          | Some s2 =>
            if (sz <=? 3)%nat
            then (Z.lor (Z.shiftl (Z.land s0 0x0F) 12)
                    (Z.lor (Z.shiftl (Z.land s1 0x3F) 6) (Z.land s2 0x3F)),
                  3%nat)
            else
              match contByte 0x80 0xBF (byteAt s 3) with
              | None => (RuneError, 1%nat)
              | Some s3 =>
                (Z.lor (Z.shiftl (Z.land s0 0x07) 18)
                   (Z.lor (Z.shiftl (Z.land s1 0x3F) 12)
                      (Z.lor (Z.shiftl (Z.land s2 0x3F) 6)
                         (Z.land s3 0x3F))),
                 4%nat)
              end
          end
      end
  end.

(** [unicode.IsSpace]: the Latin-1 cases are listed in the function, the
    others come from the [White_Space] range table. *)
Definition IsSpace (r : Z) : bool :=
  if r <=? 0xFF
  then (r =? 9) || (r =? 10) || (r =? 11) || (r =? 12) || (r =? 13)
       || (r =? 32) || (r =? 0x85) || (r =? 0xA0)
  else (r =? 0x1680) || ((0x2000 <=? r) && (r <=? 0x200A))
       || (r =? 0x2028) || (r =? 0x2029) || (r =? 0x202F)
       || (r =? 0x205F) || (r =? 0x3000).

Definition snoc (s : string) (c : ascii) : string := s +:+ String c "".

(** A field that was started is never empty, so the empty accumulator
    stands for "no field open" ([start < 0] in [FieldsFunc]). *)
Definition flush (cur : string) : list string :=
  match cur with
  | "" => []
  | _ => [cur]
  end.

(** [strings.Fields]: one pass over the runes of [s]; a white-space rune
    closes the open field, any other rune extends it.  [skip] counts the
    bytes of the current rune still to pass and [sp] tells whether that
    rune is white space. *)
Fixpoint scanFields (s : string) (skip : nat) (sp : bool) (cur : string)
  : list string :=
  match s with
  | "" => flush cur
  | String c s' =>
    match skip with
    | S n =>
      if sp then scanFields s' n sp cur
      else scanFields s' n sp (snoc cur c)
    | O =>
      let '(r, w) := DecodeRuneInString s in
      if IsSpace r
      then flush cur ++ scanFields s' (pred w) true ""
      else scanFields s' (pred w) false (snoc cur c)
    end
  end.

Definition Fields (s : string) : list string := scanFields s 0 false "".

(** [strings.Join]. *)
Fixpoint Join (elems : list string) (sep : string) : string :=
  match elems with
  | [] => ""
  | [e] => e
  | e :: rest => e +:+ sep +:+ Join rest sep
  end.

End GoStrings.

Import GoStrings.

Definition newline : string := String "010" "".

(** [strconv.Itoa], and [%d] of [fmt]. *)
Definition Itoa (n : Z) : string := NilZero.string_of_int (Z.to_int n).

(** ** Values exchanged with the imported packages *)

(** A Go [error], by the text of its [Error()] method. *)
Definition error : Type := string.

(** [ds.Key]: the key as its [String()] method prints it. *)
Definition Key : Type := string.

Definition PeerID : Type := string.
Definition Multiaddr : Type := string.
Definition PrivKey : Type := string.

Record AddrInfo := { ID : PeerID; Addrs : list Multiaddr }.

(** A connection of [h.Network().Conns()]. *)
Record Conn := { RemotePeer : PeerID; RemoteMultiaddr : Multiaddr }.

(** [query.Result]: an entry or the error met while producing it. *)
Record Result := { rKey : string; rValue : string; rError : option error }.

(** [time.Duration] counts nanoseconds. *)
Definition Millisecond : Z := 1000000.
Definition Second : Z := 1000 * Millisecond.

(** [context.Context]: the background context, or a context derived from a
    parent together with the cancel function that [context.WithCancel]
    returned, named by a number. *)
Inductive Ctx :=
| Background
| WithCancel (parent : Ctx) (cancel : nat).

(** A derived context is done once its own cancel function or that of an
    ancestor has been called. *)
Fixpoint ctxDone (cancelled : list nat) (c : Ctx) : bool :=
  match c with
  | Background => false
  | WithCancel parent n => bool_decide (n ∈ cancelled) || ctxDone cancelled parent
  end.

(** [crdt.Options], by the fields that [main] assigns.  A hook is given by
    the text it writes to standard output when the datastore calls it; nil
    is [None]. *)
Record Options := {
  Logger : option string;
  RebroadcastInterval : Z;
  PutHook : option (Key → string → string);
  DeleteHook : option (Key → string);
}.

(** The operations that [crdt.Datastore] offers to a client. *)
Inductive DsOp :=
| OpPut (k : Key) (v : string)
| OpDelete (k : Key)
| OpGet (k : Key)
| OpQuery.

(** The hook calls the datastore makes while it processes a write. *)
Inductive HookCall :=
| HookPut (k : Key) (v : string)
| HookDelete (k : Key).

(** The three goroutines [main] starts. *)
Inductive Goroutine :=
| KeepPeers (c : Ctx)        (* lines 152-161: tag every peer heard on the net topic *)
| Announce (c : Ctx)         (* lines 163-173: publish "hi!" every 20 seconds *)
| DaemonStatus.              (* lines 243-248: print the peer count every 10 seconds *)

Inductive Deferred :=
| DeferCancel (n : nat)
| DeferClose (what : string).

(** What the program does to the outside, in order. *)
Inductive Event :=
| Stdout (s : string)
| LogWarn (e : error)
| LogFatal (e : error)
| SetLogLevel (name level : string)
| SetMinRsaKeyBits (n : Z)
| MkdirAll (path : string) (perm : Z)
| NewDatastore (path : string)
| WriteFile (path data : string) (perm : Z)
| SetupLibp2p (c : Ctx) (priv : PrivKey) (listen : list (option Multiaddr))
| NewGossipSub (c : Ctx)
| JoinTopic (topic : string)
| Subscribe
| Go (g : Goroutine)
| IpfsNew (c : Ctx)
| NewPubSubBroadcaster (c : Ctx) (topic : string)
| CrdtNew (namespace : Key) (o : Options)
| Bootstrap (peers : list AddrInfo)
| TagPeer (p : PeerID) (tag : string) (weight : Z)
| Crdt (op : DsOp)
| SignalNotify
| WaitSignal
| Publish (c : Ctx) (msg : string)
| Sleep (d : Z)
| Cancel (n : nat)
| Close (what : string).

Inductive StatResult :=
| StatOk
| StatNotExist
| StatError (e : error).

(** The results of the calls [main] makes into the packages it imports.  A
    function that returns a pointer and an error returns [None] for nil. *)
Record Env := {
  Args : list string;                                   (* os.Args *)
  rand_Intn : Z → Z;
  UnixNano : Z;                                         (* time.Now().UnixNano() *)
  homedir_Dir : string * option error;
  filepath_Join : list string → string;
  badger_NewDatastore : string → option error;
  os_Stat : string → StatResult;
  GenerateKeyPair : PrivKey * option error;
  MarshalPrivateKey : PrivKey → string * option error;
  os_WriteFile : string → string → option error;
  os_ReadFile : string → string * option error;
  UnmarshalPrivateKey : string → PrivKey * option error;
  IDFromPublicKey : PrivKey → PeerID * option error;
  ipfslite_SetupLibp2p : option error;
  pubsub_NewGossipSub : option error;
  psub_Join : option error;
  topic_Subscribe : option error;
  ipfslite_New : option error;
  crdt_NewPubSubBroadcaster : option error;
  crdt_DefaultOptions : Options;
  crdt_New : option error;
  NewMultiaddr : string → option Multiaddr;
  AddrInfoFromP2pAddr : option Multiaddr → option AddrInfo;
  DefaultBootstrapPeers : list AddrInfo;
  AddrInfoToP2pAddrs : AddrInfo → list Multiaddr * option error;
  Conns : list Conn;                                    (* h.Network().Conns() *)
  netSubs_Next : bool → PeerID * option error;          (* by whether ctx is done *)
  Stamp : string;                                       (* time.Now().Format(time.Stamp) *)
  NewKey : string → Key;                                (* ds.NewKey *)
}.

(** The datastore that [crdt.New] returns, over its state [St].  Every
    operation may change the state; a write also reports the hooks it
    called. *)
Record Datastore (St : Type) := {
  crdt_Put : Key → string → St → option error * list HookCall * St;
  crdt_Delete : Key → St → option error * list HookCall * St;
  crdt_Get : Key → St → string * option error * St;
  crdt_Query : St → option (list Result) * option error * St;
}.
Arguments crdt_Put {St}.
Arguments crdt_Delete {St}.
Arguments crdt_Get {St}.
Arguments crdt_Query {St}.

(** ** The program state and its monad *)

(** The state a run threads along: the state of the datastore, the
    [*crdt.Options] object (shared with the datastore once [crdt.New] has
    it), the trace, the cancel functions called so far, the deferred calls
    of [main], and what is left of standard input: the words that the
    [fmt.Scanln] calls will read and the lines that the [bufio.Scanner]
    will yield. *)
Record World (St : Type) := mkWorld {
  store : St;
  options : option Options;
  trace : list Event;
  cancelled : list nat;
  deferred : list Deferred;
  scans : list string;
  lines : list string;
}.
Arguments mkWorld {St}.
Arguments store {St}.
Arguments options {St}.
Arguments trace {St}.
Arguments cancelled {St}.
Arguments deferred {St}.
Arguments scans {St}.
Arguments lines {St}.

(** The run-time panics that the program can raise: [index out of range
    [i] with length n], and [invalid memory address or nil pointer
    dereference]. *)
Inductive RuntimeError :=
| IndexOutOfRange (i n : nat)
| NilDereference.

(** How a computation ends: normally, by [os.Exit] (through
    [logger.Fatal]), or by a run-time panic. *)
Inductive Outcome (St A : Type) :=
| Ok (a : A) (w : World St)
| Exited (code : Z) (w : World St)
| Panicked (msg : RuntimeError) (w : World St).
Arguments Ok {St A}.
Arguments Exited {St A}.
Arguments Panicked {St A}.

Definition worldOf {St A} (o : Outcome St A) : World St :=
  match o with
  | Ok _ w | Exited _ w | Panicked _ w => w
  end.

Definition M (St A : Type) : Type := World St → Outcome St A.

Definition ret {St A} (a : A) : M St A := λ w, Ok a w.

Definition bind {St A B} (m : M St A) (k : A → M St B) : M St B :=
  λ w, match m w with
       | Ok a w' => k a w'
       | Exited c w' => Exited c w'
       | Panicked msg w' => Panicked msg w'
       end.

Declare Scope go_scope.
Delimit Scope go_scope with go.
Notation "x <- m ;; k" := (bind m (λ x, k))
  (at level 100, m at next level, right associativity) : go_scope.
Notation "m ;; k" := (bind m (λ _, k))
  (at level 100, right associativity) : go_scope.
Local Open Scope go_scope.

Section Primitives.
Context {St : Type}.

Definition emit (e : Event) : M St unit :=
  λ w, Ok () (mkWorld (store w) (options w) (trace w ++ [e])
                (cancelled w) (deferred w) (scans w) (lines w)).

Definition panic {A} (msg : RuntimeError) : M St A := λ w, Panicked msg w.

(** [os.Exit]: the process ends at once, deferred calls do not run. *)
Definition exit {A} (code : Z) : M St A := λ w, Exited code w.

(** [logger.Fatal]: log, then [os.Exit(1)]. *)
Definition Fatal {A} (e : error) : M St A := emit (LogFatal e) ;; exit 1.

Definition Print (s : string) : M St unit := emit (Stdout s).
Definition Println (s : string) : M St unit := emit (Stdout (s +:+ newline)).

(** [if err != nil { logger.Fatal(err) }]. *)
Definition check (err : option error) : M St unit :=
  match err with
  | Some e => Fatal e
  | None => ret ()
  end.

(** [fmt.Scanln(&s)] on a string variable that holds [""]: the word it
    stores, [""] when it stores nothing. *)
Definition Scanln : M St string :=
  λ w, match scans w with
       | [] => Ok "" w
       | a :: rest =>
         Ok a (mkWorld (store w) (options w) (trace w) (cancelled w)
                 (deferred w) rest (lines w))
       end.

(** [scanner.Scan()] and [scanner.Text()]: the next line, if any. *)
Definition Scan : M St (option string) :=
  λ w, match lines w with
       | [] => Ok None w
       | l :: rest =>
         Ok (Some l) (mkWorld (store w) (options w) (trace w)
                        (cancelled w) (deferred w) (scans w) rest)
       end.

Definition defer (d : Deferred) : M St unit :=
  λ w, Ok () (mkWorld (store w) (options w) (trace w) (cancelled w)
                (d :: deferred w) (scans w) (lines w)).

Definition setOptions (o : Options) : M St unit :=
  λ w, Ok () (mkWorld (store w) (Some o) (trace w) (cancelled w)
                (deferred w) (scans w) (lines w)).

(** Calling a cancel function. *)
Definition cancel (n : nat) : M St unit :=
  λ w, Ok () (mkWorld (store w) (options w) (trace w ++ [Cancel n])
                (n :: cancelled w) (deferred w) (scans w) (lines w)).

Definition isDone (c : Ctx) : M St bool := λ w, Ok (ctxDone (cancelled w) c) w.

(** [fields[i]]: an index past the end panics. *)
Definition index (fields : list string) (i : nat) : M St string :=
  match fields !! i with
  | Some f => ret f
  | None => panic (IndexOutOfRange i (length fields))
  end.

(** [*p]: a nil pointer panics. *)
Definition deref {A} (p : option A) : M St A :=
  match p with
  | Some a => ret a
  | None => panic NilDereference
  end.

(** [for _, x := range l { body }]. *)
Fixpoint forEach {A} (l : list A) (body : A → M St unit) : M St unit :=
  match l with
  | [] => ret ()
  | x :: rest => body x ;; forEach rest body
  end.

End Primitives.

(** ** [cmd/globaldb.go] *)

Definition topicName : string := "globaldb-example".
Definition netTopic : string := "globaldb-example-net".
Definition config : string := "globaldb-example".

(** The cancel functions [cancel] (line 66) and [psubCancel] (line 180). *)
Definition cancelFn : nat := 0%nat.
Definition psubCancelFn : nat := 1%nat.

(** What [fmt.Println("error:", err)] prints for [err]. *)
Definition showErr (err : option error) : string :=
  match err with
  | Some e => e
  | None => "<nil>"
  end.

(** The hooks of lines 189-195. *)
Definition putHook (k : Key) (v : string) : string :=
  "Added: [" +:+ k +:+ "] -> " +:+ v +:+ newline.
Definition deleteHook (k : Key) : string :=
  "Removed: [" +:+ k +:+ "]" +:+ newline.

(** Lines 186-195: the default options with four fields assigned. *)
Definition configure (defaults : Options) : Options :=
  let opts := defaults in
  let opts := {| Logger := Some "globaldb";
                 RebroadcastInterval := RebroadcastInterval opts;
                 PutHook := PutHook opts; DeleteHook := DeleteHook opts |} in
  let opts := {| Logger := Logger opts;
                 RebroadcastInterval := 5 * Second;
                 PutHook := PutHook opts; DeleteHook := DeleteHook opts |} in
  let opts := {| Logger := Logger opts;
                 RebroadcastInterval := RebroadcastInterval opts;
                 PutHook := Some putHook; DeleteHook := DeleteHook opts |} in
  {| Logger := Logger opts;
     RebroadcastInterval := RebroadcastInterval opts;
     PutHook := PutHook opts; DeleteHook := Some deleteHook |}.

(** [connectedPeers] (lines 346-355). *)
Definition connectedPeers (conns : list Conn) : list AddrInfo :=
  (λ c, {| ID := RemotePeer c; Addrs := [RemoteMultiaddr c] |}) <$> conns.

(** The text of the [Printf] of lines 221-239. *)
Definition banner (pid : PeerID) (listen : Multiaddr) (data addr : string)
  : string :=
  GoStrings.Join
    [ "";
      "Peer ID: " +:+ pid;
      "Listen address: " +:+ listen;
      "Topic: " +:+ topicName;
      "Data Folder: " +:+ data;
      "Node Address: " +:+ addr;
      "Ready!";
      "";
      "Commands:";
      "";
      "> list               -> list items in the store";
      "> get <key>          -> get value for a key";
      "> put <key> <value>  -> store value on a key";
      "> exit               -> quit";
      ""; ""; "" ] newline.

(** How one pass through the body of the command loop ends. *)
Inductive Flow :=
| FallOut        (* the switch is left: the prompt is printed *)
| ContinueLoop   (* [continue] *)
| ReturnMain.    (* [return] *)

Section Program.
Context {St : Type} (lib : Datastore St) (env : Env).

(** What the datastore's call of a hook writes: nothing when the hook is
    nil. *)
Definition runHook (o : option Options) (h : HookCall) : list Event :=
  match o, h with
  | Some o, HookPut k v =>
    match PutHook o with Some f => [Stdout (f k v)] | None => [] end
  | Some o, HookDelete k =>
    match DeleteHook o with Some f => [Stdout (f k)] | None => [] end
  | None, _ => []
  end.

(** [crdt.Put(ctx, k, v)]. *)
Definition Put (k : Key) (v : string) : M St (option error) :=
  λ w, let '(err, hooks, s) := crdt_Put lib k v (store w) in
       Ok err (mkWorld s (options w)
                 (trace w ++ Crdt (OpPut k v)
                    :: concat (runHook (options w) <$> hooks))
                 (cancelled w) (deferred w) (scans w) (lines w)).

(** [crdt.Get(ctx, k)]. *)
Definition Get (k : Key) : M St (string * option error) :=
  λ w, let '(v, err, s) := crdt_Get lib k (store w) in
       Ok (v, err) (mkWorld s (options w) (trace w ++ [Crdt (OpGet k)])
                      (cancelled w) (deferred w) (scans w) (lines w)).

(** [crdt.Query(ctx, q)]. *)
Definition Query : M St (option (list Result) * option error) :=
  λ w, let '(results, err, s) := crdt_Query lib (store w) in
       Ok (results, err) (mkWorld s (options w) (trace w ++ [Crdt OpQuery])
                            (cancelled w) (deferred w) (scans w) (lines w)).

(** [printErr] (lines 341-344). *)
Definition printErr (err : option error) : M St unit :=
  Println ("error: " +:+ showErr err) ;;
  Println "> ".

(** Lines 48-55. *)
Definition askBootstrap : M St bool :=
  Println "Is this a bootstrap node? (y/n): " ;;
  isBootstrap <- Scanln ;;
  if String.eqb isBootstrap "y" then ret true else ret false.

(** Lines 86-114: the private key, made and written when the key file does
    not exist, read back otherwise. *)
Definition loadKey (keyPath : string) : M St PrivKey :=
  match os_Stat env keyPath with
  | StatNotExist =>
    let '(priv, err) := GenerateKeyPair env in
    check err ;;
    let '(data, err) := MarshalPrivateKey env priv in
    check err ;;
    emit (WriteFile keyPath data 256) ;;
    check (os_WriteFile env keyPath data) ;;
    ret priv
  | StatError e => Fatal e
  | StatOk =>
    let '(key, err) := os_ReadFile env keyPath in
    check err ;;
    let '(priv, err) := UnmarshalPrivateKey env key in
    check err ;;
    ret priv
  end.

(** Lines 204-217. *)
Definition bootstrap (bootstrapNode : bool) : M St unit :=
  if negb bootstrapNode then
    Println "Enter the bootstrap node address:" ;;
    bootstrapNodeAddr <- Scanln ;;
    Println "Bootstrapping..." ;;
    let bstr := NewMultiaddr env bootstrapNodeAddr in
    let inf := AddrInfoFromP2pAddr env bstr in
    i <- deref inf ;;
    let list := (DefaultBootstrapPeers env ++ [i])%list in
    emit (Bootstrap list) ;;
    emit (TagPeer (ID i) "keep" 100)
  else ret ().

(** Lines 280-296: the [debug] sub-commands. *)
Definition debug (st : string) : M St unit :=
  if String.eqb st "on" then emit (SetLogLevel "globaldb" "debug")
  else if String.eqb st "off" then emit (SetLogLevel "globaldb" "error")
  else if String.eqb st "peers" then
    forEach (connectedPeers (Conns env)) (λ p,
      let '(addrs, err) := AddrInfoToP2pAddrs env p in
      match err with
      | Some e => emit (LogWarn e)
      | None => forEach addrs Println
      end)
  else ret ().

(** Lines 272-336: the switch on the first field. *)
Definition switch (cmd : string) (fields : list string) : M St Flow :=
  if String.eqb cmd "exit" || String.eqb cmd "quit" then ret ReturnMain
  else if String.eqb cmd "debug" then
    (if (length fields <? 2)%nat then Println "debug <on/off/peers>"
     else ret ()) ;;
    st <- index fields 1 ;;
    debug st ;;
    ret FallOut
  else if String.eqb cmd "list" then
    r <- Query ;;
    let '(results, err) := r in
    match err with Some _ => printErr err | None => ret () end ;;
    rs <- deref results ;;
    forEach rs (λ r,
      match rError r with
      | Some _ => printErr err
      | None => Print ("[" +:+ rKey r +:+ "] -> " +:+ rValue r +:+ newline)
      end) ;;
    ret FallOut
  else if String.eqb cmd "get" then
    if (length fields <? 2)%nat then
      Println "get <key>" ;;
      Println "> " ;;
      ret ContinueLoop
    else
      f1 <- index fields 1 ;;
      let k := NewKey env f1 in
      r <- Get k ;;
      let '(v, err) := r in
      match err with
      | Some _ => printErr err ;; ret ContinueLoop
      | None => Print ("[" +:+ k +:+ "] -> " +:+ v +:+ newline) ;; ret FallOut
      end
  else if String.eqb cmd "put" then
    if (length fields <? 3)%nat then
      Println "put <key> <value>" ;;
      Println "> " ;;
      ret ContinueLoop
    else
      f1 <- index fields 1 ;;
      let k := NewKey env f1 in
      let v := GoStrings.Join (drop 2 fields) " " in
      err <- Put k v ;;
      match err with
      | Some _ => printErr err ;; ret ContinueLoop
      | None => ret FallOut
      end
  else ret FallOut.

(** Lines 263-337: the body of the loop for one line; [false] when [main]
    returns. *)
Definition loopBody (text : string) : M St bool :=
  let fields := Fields text in
  match fields with
  | [] => Print "> " ;; ret true
  | cmd :: _ =>
    flow <- switch cmd fields ;;
    match flow with
    | FallOut => Print "> " ;; ret true
    | ContinueLoop => ret true
    | ReturnMain => ret false
    end
  end.

(** Lines 262-338: [for scanner.Scan() { ... }]; [fuel] bounds the number
    of lines read. *)
Fixpoint commandLoop (fuel : nat) : M St unit :=
  match fuel with
  | O => ret ()
  | S fuel =>
    line <- Scan ;;
    match line with
    | None => ret ()
    | Some text =>
      again <- loopBody text ;;
      if again : bool then commandLoop fuel else ret ()
    end
  end.

(** Lines 241-258: daemon mode waits for a signal and returns. *)
Definition daemon : M St unit :=
  Println "Running in daemon mode" ;;
  emit (Go DaemonStatus) ;;
  emit SignalNotify ;;
  emit WaitSignal.

(** [main] (lines 47-339), up to its return. *)
Definition mainBody : M St unit :=
  bootstrapNode <- askBootstrap ;;
  let port := 4000 + rand_Intn env 1000 in
  let listen := NewMultiaddr env ("/ip4/127.0.0.1/tcp/" +:+ Itoa port) in
  emit (SetMinRsaKeyBits 1024) ;;
  emit (SetLogLevel "*" "error") ;;
  let ctx := WithCancel Background cancelFn in
  defer (DeferCancel cancelFn) ;;
  let '(dir, err) := homedir_Dir env in
  check err ;;
  let uniqueID := "instance-" +:+ Itoa (UnixNano env) in
  emit (MkdirAll (filepath_Join env [dir; config]) 493) ;;
  let data := filepath_Join env [dir; config; uniqueID] in
  emit (NewDatastore data) ;;
  check (badger_NewDatastore env data) ;;
  defer (DeferClose "store") ;;
  let keyPath := filepath_Join env [data; "key"] in
  priv <- loadKey keyPath ;;
  let '(pid, err) := IDFromPublicKey env priv in
  check err ;;
  emit (SetupLibp2p ctx priv [listen]) ;;
  check (ipfslite_SetupLibp2p env) ;;
  defer (DeferClose "h") ;;
  defer (DeferClose "dht") ;;
  emit (NewGossipSub ctx) ;;
  check (pubsub_NewGossipSub env) ;;
  emit (JoinTopic netTopic) ;;
  check (psub_Join env) ;;
  emit Subscribe ;;
  check (topic_Subscribe env) ;;
  emit (Go (KeepPeers ctx)) ;;
  emit (Go (Announce ctx)) ;;
  emit (IpfsNew ctx) ;;
  check (ipfslite_New env) ;;
  let psubCtx := WithCancel ctx psubCancelFn in
  emit (NewPubSubBroadcaster psubCtx topicName) ;;
  check (crdt_NewPubSubBroadcaster env) ;;
  let opts := configure (crdt_DefaultOptions env) in
  setOptions opts ;;
  emit (CrdtNew (NewKey env "crdt") opts) ;;
  check (crdt_New env) ;;
  defer (DeferClose "crdt") ;;
  defer (DeferCancel psubCancelFn) ;;
  bootstrap bootstrapNode ;;
  l <- deref listen ;;
  let myNodeAddr := l +:+ "/ipfs/" +:+ pid in
  Print (banner pid l data myNodeAddr) ;;
  if bool_decide (Args env !! 1%nat = Some "daemon") then daemon
  else
    Print "> " ;;
    λ w, commandLoop (length (lines w)) w.

(** The deferred calls, last deferred first. *)
Definition runDeferred : M St unit :=
  λ w, forEach (deferred w) (λ d,
         match d with
         | DeferCancel n => cancel n
         | DeferClose what => emit (Close what)
         end) w.

(** A run of the program: the deferred calls run when [main] returns and
    when it panics, not when it exits through [os.Exit]. *)
Definition main : M St unit :=
  λ w, match mainBody w with
       | Ok _ w' => runDeferred w'
       | Exited c w' => Exited c w'
       | Panicked msg w' =>
         match runDeferred w' with
         | Ok _ w'' => Panicked msg w''
         | o => o
         end
       end.

(** One pass of a goroutine's loop; [false] when the goroutine ends. *)
Definition goroutineStep (g : Goroutine) : M St bool :=
  match g with
  | KeepPeers c =>
    done <- isDone c ;;
    let '(from, err) := netSubs_Next env done in
    match err with
    | Some e => Println e ;; ret false
    | None => emit (TagPeer from "keep" 100) ;; ret true
    end
  | Announce c =>
    done <- isDone c ;;
    if done : bool then ret false
    else
      emit (Publish c "hi!") ;;
      emit (Sleep (20 * Second)) ;;
      ret true
  | DaemonStatus =>
    Print (Stamp env +:+ " - "
           +:+ Itoa (Z.of_nat (length (connectedPeers (Conns env))))
           +:+ " connected peers" +:+ newline) ;;
    emit (Sleep (10 * Second)) ;;
    ret true
  end.

End Program.


(** The datastore operations issued so far. *)
Definition dsOps (t : list Event) : list DsOp :=
  omap (λ e, match e with Crdt op => Some op | _ => None end) t.

(** What was written to standard output so far. *)
Definition printed (t : list Event) : list string :=
  omap (λ e, match e with Stdout s => Some s | _ => None end) t.

(** ** A sample environment and datastore

    A datastore that keeps its entries in a finite map, calls the put hook
    on every successful write and refuses to write the key [/readonly]; an
    environment in which every set-up call succeeds.  They serve to run the
    program on concrete inputs. *)

Module Sample.

Definition St : Type := gmap string string.

Definition put (k : Key) (v : string) (s : St)
  : option error * list HookCall * St :=
  if String.eqb k "/readonly" then (Some "store: write failed", [], s)
  else (None, [HookPut k v], <[k := v]> s).

Definition delete (k : Key) (s : St) : option error * list HookCall * St :=
  (None, [HookDelete k], delete k s).

Definition get (k : Key) (s : St) : string * option error * St :=
  match s !! k with
  | Some v => (v, None, s)
  | None => ("", Some "datastore: key not found", s)
  end.

Definition query (s : St) : option (list Result) * option error * St :=
  (Some ((λ kv, {| rKey := kv.1; rValue := kv.2; rError := None |})
           <$> map_to_list s), None, s).

Definition lib : Datastore St :=
  {| crdt_Put := put; crdt_Delete := delete;
     crdt_Get := get; crdt_Query := query |}.

Definition parseAddr (s : string) : option Multiaddr :=
  match s with
  | String "/" _ => Some s
  | _ => None
  end.

Definition env (args : list string) : Env :=
  {| Args := args;
     rand_Intn := λ n, 81 `mod` n;
     UnixNano := 1700000000000000000;
     homedir_Dir := ("/home/u", None);
     filepath_Join := λ l, GoStrings.Join l "/";
     badger_NewDatastore := λ _, None;
     os_Stat := λ _, StatNotExist;
     GenerateKeyPair := ("priv", None);
     MarshalPrivateKey := λ p, (p, None);
     os_WriteFile := λ _ _, None;
     os_ReadFile := λ _, ("priv", None);
     UnmarshalPrivateKey := λ d, (d, None);
     IDFromPublicKey := λ p, ("12D3KooW", None);
     ipfslite_SetupLibp2p := None;
     pubsub_NewGossipSub := None;
     psub_Join := None;
     topic_Subscribe := None;
     ipfslite_New := None;
     crdt_NewPubSubBroadcaster := None;
     crdt_DefaultOptions :=
       {| Logger := None; RebroadcastInterval := 60 * Second;
          PutHook := None; DeleteHook := None |};
     crdt_New := None;
     NewMultiaddr := parseAddr;
     AddrInfoFromP2pAddr := λ m,
       match m with
       | Some a => Some {| ID := "QmBoot"; Addrs := [a] |}
       | None => None
       end;
     DefaultBootstrapPeers := [];
     AddrInfoToP2pAddrs := λ p, (Addrs p, None);
     Conns := [];
     netSubs_Next := λ done : bool,
       if done then ("", Some "context canceled") else ("QmPeer", None);
     Stamp := "Jan  1 00:00:00";
     NewKey := λ s, "/" +:+ s |}.

Definition world (answers input : list string) : World St :=
  mkWorld ∅ None [] [] [] answers input.

End Sample.

(** ** Plain words

    A word character is an ASCII byte that is not white space; a word is a
    non-empty string of word characters. *)

Fixpoint allChars (p : ascii → bool) (s : string) : bool :=
  match s with
  | "" => true
  | String c s' => p c && allChars p s'
  end.

Definition wordChar (c : ascii) : bool :=
  (byteZ c <? 0x80) && negb (IsSpace (byteZ c)).

Definition isWord (s : string) : bool :=
  negb (String.eqb s "") && allChars wordChar s.

(** ** Relations between the state before and after a computation *)

(** [m] respects [R] when every run of [m], however it ends, takes its
    initial state to an [R]-related state. *)
Definition respects {St A} (R : relation (World St)) (m : M St A) : Prop :=
  ∀ w, R w (worldOf (m w)).

(** The run appended events that all satisfy [P] to the trace. *)
Definition Steps {St} (P : Event → Prop) : relation (World St) :=
  λ w w', ∃ evs, trace w' = (trace w ++ evs)%list ∧ Forall P evs.

(** The run left the component [f] of the state as it was. *)
Definition Keeps {St B} (f : World St → B) : relation (World St) :=
  λ w w', f w' = f w.

(** A relation that the primitive state changes respect: [emit] for the
    events in [ok], the reads of standard input, [defer] and [cancel]. *)
Class Frame {St} (R : relation (World St)) (ok : Event → Prop) := {
  frame_preorder :: PreOrder R;
  frame_emit e : ok e → respects R (emit e);
  frame_Scanln : respects R Scanln;
  frame_Scan : respects R Scan;
  frame_defer d : respects R (defer d);
  frame_cancel n : ok (Cancel n) → respects R (cancel n);
}.

(** Every panic that [m] can end in satisfies [P]. *)
Definition panics {St A} (P : RuntimeError → Prop) (m : M St A) : Prop :=
  ∀ w msg w', m w = Panicked msg w' → P msg.

(** The run left the options object alone or set it as lines 186-195 do. *)
Definition Configures {St} (env : Env) : relation (World St) :=
  λ w w', options w' = options w ∨
          options w' = Some (configure (crdt_DefaultOptions env)).

Definition rootCtx : Ctx := WithCancel Background cancelFn.

(** The events of a run of [main]: which contexts, goroutines and options
    the set-up hands out, and which datastore operations may follow. *)
Definition mainEvent (env : Env) (e : Event) : Prop :=
  match e with
  | SetupLibp2p c _ l =>
    c = rootCtx ∧
    l = [NewMultiaddr env ("/ip4/127.0.0.1/tcp/"
                           +:+ Itoa (4000 + rand_Intn env 1000))]
  | NewGossipSub c | IpfsNew c => c = rootCtx
  | Go g => g = KeepPeers rootCtx ∨ g = Announce rootCtx ∨ g = DaemonStatus
  | NewPubSubBroadcaster c t =>
    c = WithCancel rootCtx psubCancelFn ∧ t = topicName
  | CrdtNew ns o =>
    ns = NewKey env "crdt" ∧ o = configure (crdt_DefaultOptions env)
  | Crdt (OpDelete _) => False
  | _ => True
  end.

(** The events of one pass of the command loop on the line [text]: prints
    and log calls, reads of the datastore, and a write only as the [put]
    command makes it. *)
Definition lineEvent (env : Env) (text : string) (e : Event) : Prop :=
  match e with
  | Stdout _ | LogWarn _ | SetLogLevel _ _ => True
  | Crdt (OpGet _) | Crdt OpQuery => True
  | Crdt (OpPut k v) =>
    ∃ f1 w1 ws, Fields text = "put" :: f1 :: w1 :: ws ∧
                k = NewKey env f1 ∧ v = GoStrings.Join (w1 :: ws) " "
  | _ => False
  end.

(** The events of a read: prints, and [Get] or [Query] on the datastore. *)
Definition readEvent (e : Event) : Prop :=
  match e with
  | Stdout _ | Crdt (OpGet _) | Crdt OpQuery => True
  | _ => False
  end.

(** ** The outcome of a pass, and the deferred calls *)

(** The state once the events [evs] have been appended to the trace. *)
Definition say {St} (evs : list Event) (w : World St) : World St :=
  mkWorld (store w) (options w) (trace w ++ evs) (cancelled w) (deferred w)
    (scans w) (lines w).

(** The state with the datastore in state [s]. *)
Definition withStore {St} (s : St) (w : World St) : World St :=
  mkWorld s (options w) (trace w) (cancelled w) (deferred w) (scans w)
    (lines w).

(** A blank is an ASCII byte that is white space. *)
Definition blankChar (c : ascii) : bool :=
  (byteZ c <? 0x80) && IsSpace (byteZ c).

(** What [printErr] writes. *)
Definition errLines (err : option error) : list Event :=
  [Stdout ("error: " +:+ showErr err +:+ newline); Stdout ("> " +:+ newline)].

(** What the body of the loop of lines 303-309 writes for one result, [err]
    being the error of the call of [crdt.Query]. *)
Definition listLine (err : option error) (r : Result) : list Event :=
  match rError r with
  | Some _ => errLines err
  | None => [Stdout ("[" +:+ rKey r +:+ "] -> " +:+ rValue r +:+ newline)]
  end.

(** What the body of the loop of lines 286-295 does for one peer. *)
Definition peerLines (env : Env) (p : AddrInfo) : list Event :=
  match AddrInfoToP2pAddrs env p with
  | (_, Some e) => [LogWarn e]
  | (addrs, None) => (λ a, Stdout (a +:+ newline)) <$> addrs
  end.

(** The call that a deferred entry stands for. *)
Definition cleanupEvent (d : Deferred) : Event :=
  match d with
  | DeferCancel n => Cancel n
  | DeferClose what => Close what
  end.

(** The deferred calls of a [main] that got past line 202, last deferred
    first. *)
Definition deferredCalls : list Deferred :=
  [DeferCancel psubCancelFn; DeferClose "crdt"; DeferClose "dht";
   DeferClose "h"; DeferClose "store"; DeferCancel cancelFn].

(** [m] does not panic, and when it returns it has deferred the calls
    [ds], last deferred first. *)
Definition defers {St A} (ds : list Deferred) (m : M St A) : Prop :=
  ∀ w, match m w with
       | Ok _ w' => deferred w' = (ds ++ deferred w)%list
       | Exited _ _ => True
       | Panicked _ _ => False
       end.

(** When [m] returns or panics, it has deferred the calls [ds]. *)
Definition leaves {St A} (ds : list Deferred) (m : M St A) : Prop :=
  ∀ w, match m w with
       | Ok _ w' | Panicked _ w' => deferred w' = (ds ++ deferred w)%list
       | Exited _ _ => True
       end.

(** Every way in which [m] ends the process through [os.Exit] satisfies
    [P]. *)
Definition exits {St A} (P : Z → World St → Prop) (m : M St A) : Prop :=
  ∀ w c w', m w = Exited c w' → P c w'.

(** Every result that [m] returns satisfies [Q]. *)
Definition yields {St A} (Q : A → World St → Prop) (m : M St A) : Prop :=
  ∀ w a w', m w = Ok a w' → Q a w'.

(** The environment [e] with other answers of [badger.NewDatastore] and
    [peer.AddrInfoToP2pAddrs] and other connections. *)
Definition setEnv (e : Env) (newDatastore : string → option error)
    (toP2pAddrs : AddrInfo → list Multiaddr * option error)
    (conns : list Conn) : Env :=
  {| Args := Args e;
     rand_Intn := rand_Intn e;
     UnixNano := UnixNano e;
     homedir_Dir := homedir_Dir e;
     filepath_Join := filepath_Join e;
     badger_NewDatastore := newDatastore;
     os_Stat := os_Stat e;
     GenerateKeyPair := GenerateKeyPair e;
     MarshalPrivateKey := MarshalPrivateKey e;
     os_WriteFile := os_WriteFile e;
     os_ReadFile := os_ReadFile e;
     UnmarshalPrivateKey := UnmarshalPrivateKey e;
     IDFromPublicKey := IDFromPublicKey e;
     ipfslite_SetupLibp2p := ipfslite_SetupLibp2p e;
     pubsub_NewGossipSub := pubsub_NewGossipSub e;
     psub_Join := psub_Join e;
     topic_Subscribe := topic_Subscribe e;
     ipfslite_New := ipfslite_New e;
     crdt_NewPubSubBroadcaster := crdt_NewPubSubBroadcaster e;
     crdt_DefaultOptions := crdt_DefaultOptions e;
     crdt_New := crdt_New e;
     NewMultiaddr := NewMultiaddr e;
     AddrInfoFromP2pAddr := AddrInfoFromP2pAddr e;
     DefaultBootstrapPeers := DefaultBootstrapPeers e;
     AddrInfoToP2pAddrs := toP2pAddrs;
     Conns := conns;
     netSubs_Next := netSubs_Next e;
     Stamp := Stamp e;
     NewKey := NewKey e |}.

(** A node with connections to three peers, for the second of which
    [peer.AddrInfoToP2pAddrs] fails. *)
Definition crowded (e : Env) : Env :=
  setEnv e (badger_NewDatastore e)
    (λ p, if String.eqb (ID p) "QmB" then ([], Some "invalid p2p multiaddr")
          else ((λ a, a +:+ "/p2p/" +:+ ID p) <$> Addrs p, None))
    [ {| RemotePeer := "QmA"; RemoteMultiaddr := "/ip4/10.0.0.1/tcp/4001" |};
      {| RemotePeer := "QmB"; RemoteMultiaddr := "/ip4/10.0.0.2/tcp/4001" |};
      {| RemotePeer := "QmC"; RemoteMultiaddr := "/ip4/10.0.0.3/tcp/4001" |} ].

(** A node whose data folder cannot be opened. *)
Definition locked (e : Env) : Env :=
  setEnv e (λ _, Some "Cannot acquire directory lock")
    (AddrInfoToP2pAddrs e) (Conns e).

(** The calls that only run as deferred calls. *)
Definition isCleanup (e : Event) : Prop :=
  match e with
  | Cancel _ | Close _ => True
  | _ => False
  end.

(** [m] leaves the component [f] of the state as it was, however it
    ends. *)
Definition keeps {St A B} (f : World St → B) (m : M St A) : Prop :=
  ∀ w, f (worldOf (m w)) = f w.

(** [f] reads nothing of the state but the deferred calls and the lines
    not yet read. *)
Class Inert {St B} (f : World St → B) : Prop :=
  inert : ∀ s o t c sc w, f (mkWorld s o t c (deferred w) sc (lines w)) = f w.

(** The events of a run before the datastore is in use and before any
    deferred call runs. *)
Definition setupEvent (e : Event) : Prop :=
  match e with
  | Crdt _ | Cancel _ | Close _ => False
  | _ => True
  end.

(** [m] exits only through [logger.Fatal], after events in [Q]. *)
Definition fatal {St A} (Q : Event → Prop) (m : M St A) : Prop :=
  ∀ w c w', m w = Exited c w' →
    c = 1 ∧ ∃ evs e, trace w' = (trace w ++ evs ++ [LogFatal e])%list ∧
                     Forall Q evs.

(** [continue] is only reached right after a prompt line. *)
Definition afterPrompt {St} (flow : Flow) (w : World St) : Prop :=
  flow = ContinueLoop →
  ∃ t, trace w = (t ++ [Stdout ("> " +:+ newline)])%list.

(** Lines 69-86: the path of the key file. *)
Definition keyPathOf (env : Env) : string :=
  let dir := (homedir_Dir env).1 in
  let data := filepath_Join env
                [dir; config; "instance-" +:+ Itoa (UnixNano env)] in
  filepath_Join env [data; "key"].

(** The one write of a file: the key, marshalled, into a key file that
    [os.Stat] reported as missing, with permission 0400. *)
Definition keyEvent (env : Env) (e : Event) : Prop :=
  match e with
  | WriteFile path data perm =>
    path = keyPathOf env ∧ perm = 256 ∧
    os_Stat env path = StatNotExist ∧
    data = (MarshalPrivateKey env (GenerateKeyPair env).1).1
  | _ => True
  end.

(** The calls that set daemon mode up. *)
Definition daemonEvent (e : Event) : Prop :=
  match e with
  | Go DaemonStatus | SignalNotify | WaitSignal => True
  | _ => False
  end.

(** Whenever [m] returns or panics, [Q] relates the states before and
    after. *)
Definition reaches {St A} (Q : relation (World St)) (m : M St A) : Prop :=
  ∀ w, match m w with
       | Ok _ w' | Panicked _ w' => Q w w'
       | Exited _ _ => True
       end.

(** The run appended events to the trace, among them one in [P]. *)
Definition Did {St} (P : Event → Prop) : relation (World St) :=
  λ w w', ∃ evs, trace w' = (trace w ++ evs)%list ∧ ∃ e, e ∈ evs ∧ P e.

(** The run appended events to the trace. *)
Definition Grows {St} : relation (World St) := Steps (λ _, True).

(** The run called [crdt.New] with the options object [o], which is the
    options object of the state after. *)
Definition Configured {St} (ns : Key) (o : Options) : relation (World St) :=
  λ w w', Did (eq (CrdtNew ns o)) w w' ∧ options w' = Some o.

(** Lines 57-59 and 120-127: the call of [ipfslite.SetupLibp2p] on the root
    context with the one listen address that [main] builds. *)
Definition listenCall (env : Env) (e : Event) : Prop :=
  ∃ priv,
    e = SetupLibp2p rootCtx priv
          [NewMultiaddr env ("/ip4/127.0.0.1/tcp/"
                             +:+ Itoa (4000 + rand_Intn env 1000))].

(** The errors that the calls of the set-up of [main] return in the
    environment [env]. *)
Inductive setupError (env : Env) : error → Prop :=
| err_homedir dir x : homedir_Dir env = (dir, Some x) → setupError env x
| err_datastore path x : badger_NewDatastore env path = Some x → setupError env x
| err_stat path x : os_Stat env path = StatError x → setupError env x
| err_generate priv x : GenerateKeyPair env = (priv, Some x) → setupError env x
| err_marshal priv data x :
    MarshalPrivateKey env priv = (data, Some x) → setupError env x
| err_write path data x : os_WriteFile env path data = Some x → setupError env x
| err_read path key x : os_ReadFile env path = (key, Some x) → setupError env x
| err_unmarshal key priv x :
    UnmarshalPrivateKey env key = (priv, Some x) → setupError env x
| err_peer_id priv pid x :
    IDFromPublicKey env priv = (pid, Some x) → setupError env x
| err_libp2p x : ipfslite_SetupLibp2p env = Some x → setupError env x
| err_gossip x : pubsub_NewGossipSub env = Some x → setupError env x
| err_join x : psub_Join env = Some x → setupError env x
| err_subscribe x : topic_Subscribe env = Some x → setupError env x
| err_ipfs x : ipfslite_New env = Some x → setupError env x
| err_broadcaster x : crdt_NewPubSubBroadcaster env = Some x → setupError env x
| err_crdt x : crdt_New env = Some x → setupError env x.

(** A fatal log entry reports an error of the set-up. *)
Definition fatalEvent (env : Env) (e : Event) : Prop :=
  match e with
  | LogFatal x => setupError env x
  | _ => True
  end.

(** ** The merge engine and the sync processor

    The program reaches the replication core only through [crdt.New],
    [Put], [Get] and [Query] of the imported [go-ds-crdt]; none of its code
    is in the repository.  The definitions of this module follow the
    specification (sections 3, 4.1 and 4.2). *)

Module Engine.

(** Modelled from the spec: the content identifier of a delta, a byte
    string; identifiers are compared lexicographically. *)
Definition Id : Type := string.

Definition Value : Type := string.

(** Modelled from the spec: a delta (section 3) with its additions
    [(key, value, priority)], its removals [(key, anchors)] and the
    identifiers of its parents, in the order of its serialized form. *)
Record Delta := mkDelta {
  additions : list (Key * Value * Z);
  removals : list (Key * list Id);
  parents : list Id;
}.

(** Modelled from the spec: the materialized state of one key (section 3),
    with the identifier of the delta that holds the current value, which the
    tie-break compares. *)
Record KeyState := mkKeyState {
  current_value : Value;
  current_priority : Z;
  current_id : Id;
  is_tombstoned : bool;
}.

(** Modelled from the spec: the shared structures of a replica that a merge
    touches, the Materialized State and the Applied Set, and with them the
    removals of applied deltas that have not taken effect: a removal takes
    effect once all its anchors are causally present (section 3), so one
    that lacks an anchor waits for it. *)
Record Replica := mkReplica {
  state : gmap Key KeyState;
  applied : gset Id;
  waiting : list (Key * list Id);
}.

Inductive ApplyError := CausalGapError.

(** Modelled from the spec: the comparator over [(priority, identifier)]
    pairs (section 9): [later p i q j] when [(p, i)] wins over [(q, j)], by
    the higher priority and, on equal priorities, the larger identifier. *)
Definition later (p : Z) (i : Id) (q : Z) (j : Id) : bool :=
  (q <? p) || ((p =? q) && String.ltb j i).

Definition isApplied (done : gset Id) (i : Id) : bool :=
  bool_decide (i ∈ done).

Definition covers (anchors : list Id) (i : Id) : bool :=
  bool_decide (i ∈ anchors).

(** Modelled from the spec: a removal is ready to take effect when all its
    anchors are in the Applied Set (sections 3 and 4.1). *)
Definition ready (done : gset Id) (r : Key * list Id) : bool :=
  forallb (isApplied done) r.2.

(** Modelled from the spec: one addition of the delta [id] (section 4.1):
    it takes the key when the key has no state or when its priority, with
    the tie-break, is later than the current one, and clears the
    tombstone. *)
Definition applyAddition (id : Id) (m : gmap Key KeyState)
    (a : Key * Value * Z) : gmap Key KeyState :=
  let '(k, v, p) := a in
  match m !! k with
  | Some ks =>
    if later p id (current_priority ks) (current_id ks)
    then <[k := mkKeyState v p id false]> m
    else m
  | None => <[k := mkKeyState v p id false]> m
  end.

Definition tombstone (ks : KeyState) : KeyState :=
  mkKeyState (current_value ks) (current_priority ks) (current_id ks) true.

(** Modelled from the spec: one removal (section 4.1): when all its anchors
    are in the Applied Set, the key is marked tombstoned unless a later
    addition that no anchor covers exists, which is the case exactly when
    the addition that holds the key is not from an anchor.  A removal that
    is not ready leaves the state as it is; [Apply] keeps it for later. *)
Definition applyRemoval (done : gset Id) (m : gmap Key KeyState)
    (r : Key * list Id) : gmap Key KeyState :=
  let '(k, anchors) := r in
  if ready done r then
    match m !! k with
    | Some ks =>
      if covers anchors (current_id ks) then <[k := tombstone ks]> m else m
    | None => m
    end
  else m.

(** Modelled from the spec: [Apply] of the Merge Engine (section 4.1): a
    no-op on an identifier of the Applied Set, [CausalGapError] when a
    parent is not applied; else the additions, then the identifier joins
    the Applied Set, then the removals: those of the delta and those that
    waited for an anchor.  The removals that still lack an anchor wait on
    (section 3). *)
Definition Apply (id : Id) (delta : Delta) (r : Replica)
  : Replica + ApplyError :=
  if isApplied (applied r) id then inl r
  else if forallb (isApplied (applied r)) (parents delta) then
    let m := foldl (applyAddition id) (state r) (additions delta) in
    let done := {[id]} ∪ applied r in
    let rems := (waiting r ++ removals delta)%list in
    let m := foldl (applyRemoval done) m rems in
    inl (mkReplica m done (List.filter (λ x, negb (ready done x)) rems))
  else inr CausalGapError.

(** Modelled from the spec: [Learn] of the Sync Processor (section 4.2)
    over the DAG store [dag]: a head that is not applied is fetched, its
    parents are learnt first, then it is applied; an unknown identifier, a
    failed [Apply] or the end of the traversal limit leave the replica as
    far as it got. *)
Fixpoint Learn (limit : nat) (dag : gmap Id Delta) (id : Id) (r : Replica)
  : Replica :=
  match limit with
  | O => r
  | S limit =>
    if isApplied (applied r) id then r
    else
      match dag !! id with
      | None => r
      | Some delta =>
        let r := foldl (λ r p, Learn limit dag p r) r (parents delta) in
        match Apply id delta r with
        | inl r' => r'
        | inr _ => r
        end
      end
  end.

(** The heads a replica hears of, in their order of arrival. *)
Definition learnAll (limit : nat) (dag : gmap Id Delta) (heads : list Id)
    (r : Replica) : Replica :=
  foldl (λ r h, Learn limit dag h r) r heads.

(** The replicas over a DAG store: the empty one, and what a successful
    [Apply] of a stored delta makes of a replica. *)
Inductive Reachable (dag : gmap Id Delta) : Replica → Prop :=
| reach_empty : Reachable dag (mkReplica ∅ ∅ [])
| reach_apply r id delta r' :
    Reachable dag r → dag !! id = Some delta → Apply id delta r = inl r' →
    Reachable dag r'.

(** *** One key at a time *)

(** What [applyAddition] and [applyRemoval] do to the state of the key
    [k]. *)
Definition stepAdd (id : Id) (k : Key) (st : option KeyState)
    (a : Key * Value * Z) : option KeyState :=
  let '(k', v, p) := a in
  if decide (k' = k) then
    match st with
    | Some ks =>
      if later p id (current_priority ks) (current_id ks)
      then Some (mkKeyState v p id false) else st
    | None => Some (mkKeyState v p id false)
    end
  else st.

Definition stepRem (done : gset Id) (k : Key) (st : option KeyState)
    (r : Key * list Id) : option KeyState :=
  let '(k', anchors) := r in
  if decide (k' = k) then
    if ready done r then
      match st with
      | Some ks =>
        if covers anchors (current_id ks) then Some (tombstone ks) else st
      | None => None
      end
    else st
  else st.

(** The addition of a delta that competes for the key [k]: the first of
    those with the highest priority. *)
Definition pickStep (k : Key) (acc : option (Value * Z))
    (a : Key * Value * Z) : option (Value * Z) :=
  let '(k', v, p) := a in
  if decide (k' = k) then
    match acc with
    | Some (v0, p0) => if p0 <? p then Some (v, p) else acc
    | None => Some (v, p)
    end
  else acc.

Definition pick (k : Key) (adds : list (Key * Value * Z))
  : option (Value * Z) :=
  foldl (pickStep k) None adds.

(** The state of a key after the additions of the delta [id], of which
    [best] competes. *)
Definition merge1 (id : Id) (st : option KeyState) (best : option (Value * Z))
  : option KeyState :=
  match best with
  | None => st
  | Some (v, p) =>
    match st with
    | Some ks =>
      if later p id (current_priority ks) (current_id ks)
      then Some (mkKeyState v p id false) else st
    | None => Some (mkKeyState v p id false)
    end
  end.

(** A removal of [k] that takes effect and whose anchors cover [i]. *)
Definition hit (done : gset Id) (k : Key) (i : Id) (r : Key * list Id) : bool :=
  bool_decide (r.1 = k) && ready done r && covers r.2 i.

Definition mark (ks : KeyState) (b : bool) : KeyState :=
  if b then tombstone ks else ks.

(** A removal of the key [k] by a delta of [S] has all its anchors in [S],
    and [i] among them. *)
Definition removed (dag : gmap Id Delta) (S : gset Id) (k : Key) (i : Id)
  : Prop :=
  ∃ id delta anchors, id ∈ S ∧ dag !! id = Some delta ∧
                      (k, anchors) ∈ removals delta ∧
                      (∀ a, a ∈ anchors → a ∈ S) ∧ i ∈ anchors.

(** The state of the key [k] as the set [S] of applied deltas determines
    it: no state when no delta of [S] adds the key; else the value and
    priority of an addition of [S] than which none of [S] is later, marked
    tombstoned exactly when a removal of [S] with all its anchors in [S]
    has its delta as an anchor. *)
Definition Desc (dag : gmap Id Delta) (S : gset Id) (k : Key)
    (st : option KeyState) : Prop :=
  match st with
  | None =>
    ∀ id delta v p, id ∈ S → dag !! id = Some delta →
                    (k, v, p) ∉ additions delta
  | Some ks =>
    current_id ks ∈ S ∧
    (∃ delta, dag !! current_id ks = Some delta ∧
              pick k (additions delta)
              = Some (current_value ks, current_priority ks)) ∧
    (∀ id delta v p, id ∈ S → dag !! id = Some delta →
       (k, v, p) ∈ additions delta →
       later p id (current_priority ks) (current_id ks) = false) ∧
    (is_tombstoned ks = true ↔ removed dag S k (current_id ks))
  end.

(** Every delta of [S] is stored and has its parents in [S]. *)
Definition closed (dag : gmap Id Delta) (S : gset Id) : Prop :=
  ∀ id, id ∈ S → ∃ delta, dag !! id = Some delta ∧
                          ∀ p, p ∈ parents delta → p ∈ S.

(** The removals that wait are those of the deltas of [S] that lack an
    anchor in [S]. *)
Definition Waits (dag : gmap Id Delta) (S : gset Id)
    (wait : list (Key * list Id)) : Prop :=
  ∀ x, x ∈ wait ↔
       (∃ id delta, id ∈ S ∧ dag !! id = Some delta ∧ x ∈ removals delta) ∧
       ready S x = false.

Definition Inv (dag : gmap Id Delta) (r : Replica) : Prop :=
  closed dag (applied r) ∧
  (∀ k, Desc dag (applied r) k (state r !! k)) ∧
  Waits dag (applied r) (waiting r).

(** A history to run the engine on: [a] and [b] write the key [k]
    concurrently with the same priority, [c] follows [a] and removes what
    [a] wrote. *)
Definition history : gmap Id Delta :=
  <["a" := mkDelta [("k", "v1", 1)] [] []]>
  (<["b" := mkDelta [("k", "v2", 1)] [] []]>
  (<["c" := mkDelta [] [("k", ["a"])] ["a"]]> ∅)).

(** A store in which a removal names an anchor outside its causal past:
    [r] follows [a] only, yet names the concurrent [x] among its anchors. *)
Definition skewed : gmap Id Delta :=
  <["a" := mkDelta [("k", "v1", 2)] [] []]>
  (<["x" := mkDelta [("k", "v0", 1)] [] []]>
  (<["r" := mkDelta [] [("k", ["a"; "x"])] ["a"]]> ∅)).

End Engine.

(** ** Proofs *)

Section FrameLemmas.
Context {St : Type} {R : relation (World St)} {ok : Event → Prop}.
Context `{!Frame R ok}.

Lemma respects_ret {A} (a : A) : respects R (ret a).
Proof. intros w. simpl. reflexivity. Qed.

Lemma respects_bind {A B} (m : M St A) (k : A → M St B) :
  respects R m → (∀ a, respects R (k a)) → respects R (bind m k).
Proof.
  intros Hm Hk w. unfold bind. specialize (Hm w).
  destruct (m w) as [a w'| |]; simpl in *; try done.
  etrans; [exact Hm | apply Hk].
Qed.

Lemma respects_bind_ret {A B} (a : A) (k : A → M St B) :
  respects R (k a) → respects R (bind (ret a) k).
Proof. intros H w. apply H. Qed.

Lemma respects_panic {A} msg : respects R (panic (A := A) msg).
Proof. intros w. simpl. reflexivity. Qed.

Lemma respects_exit {A} c : respects R (exit (A := A) c).
Proof. intros w. simpl. reflexivity. Qed.

Lemma respects_Fatal {A} e : ok (LogFatal e) → respects R (Fatal (A := A) e).
Proof.
  intros H. apply respects_bind; [by apply frame_emit |].
  intros _. apply respects_exit.
Qed.

Lemma respects_check err :
  (∀ e, ok (LogFatal e)) → respects R (check err).
Proof.
  intros H. destruct err; [by apply respects_Fatal | apply respects_ret].
Qed.

Lemma respects_Print s : ok (Stdout s) → respects R (Print s).
Proof. apply frame_emit. Qed.

Lemma respects_Println s :
  ok (Stdout (s +:+ newline)) → respects R (Println s).
Proof. apply frame_emit. Qed.

Lemma respects_index fields i : respects R (index fields i).
Proof.
  unfold index. destruct (fields !! i);
    [apply respects_ret | apply respects_panic].
Qed.

Lemma respects_deref {A} (p : option A) : respects R (deref p).
Proof. destruct p; [apply respects_ret | apply respects_panic]. Qed.

Lemma respects_forEach {A} (l : list A) body :
  (∀ x, respects R (body x)) → respects R (forEach l body).
Proof.
  intros H. induction l as [|x l IH]; simpl.
  - apply respects_ret.
  - apply respects_bind; [apply H | intros _; exact IH].
Qed.

Lemma respects_isDone c : respects R (isDone c).
Proof. intros w. simpl. reflexivity. Qed.

Lemma respects_printErr err :
  (∀ s, ok (Stdout s)) → respects R (printErr err).
Proof.
  intros H. apply respects_bind; [apply respects_Println, H |].
  intros _. apply respects_Println, H.
Qed.

End FrameLemmas.

Section Instances.
Context {St : Type}.

#[export] Instance Steps_preorder (P : Event → Prop) :
  PreOrder (Steps (St := St) P).
Proof.
  split.
  - intros w. exists []. by rewrite app_nil_r.
  - intros w1 w2 w3 (e1 & H1 & F1) (e2 & H2 & F2).
    exists (e1 ++ e2)%list. split.
    + by rewrite H2, H1, app_assoc.
    + by apply Forall_app.
Qed.

Lemma Steps_same_trace (P : Event → Prop) (w w' : World St) :
  trace w' = trace w → Steps P w w'.
Proof. intros H. exists []. by rewrite app_nil_r. Qed.

Lemma Steps_one (P : Event → Prop) (w w' : World St) e :
  trace w' = (trace w ++ [e])%list → P e → Steps P w w'.
Proof. intros H He. exists [e]. by split; [| constructor]. Qed.

#[export] Instance Steps_frame (P : Event → Prop) :
  Frame (Steps (St := St) P) P.
Proof.
  split; [apply _ | ..].
  - intros e He w. by eapply Steps_one.
  - intros w. apply Steps_same_trace. unfold Scanln. by destruct (scans w).
  - intros w. apply Steps_same_trace. unfold Scan. by destruct (lines w).
  - intros d w. by apply Steps_same_trace.
  - intros n Hn w. by eapply Steps_one.
Qed.

#[export] Instance Keeps_preorder {B} (f : World St → B) :
  PreOrder (Keeps f).
Proof.
  split; [by intros w | intros w1 w2 w3 H1 H2].
  unfold Keeps in *. congruence.
Qed.

#[export] Instance Keeps_options_frame :
  Frame (Keeps (St := St) options) (λ _, True).
Proof.
  split; [apply _ | ..]; try done.
  - intros w. unfold Scanln. by destruct (scans w).
  - intros w. unfold Scan. by destruct (lines w).
Qed.

#[export] Instance Keeps_store_frame :
  Frame (Keeps (St := St) store) (λ _, True).
Proof.
  split; [apply _ | ..]; try done.
  - intros w. unfold Scanln. by destruct (scans w).
  - intros w. unfold Scan. by destruct (lines w).
Qed.

(** A run that appends events in [P] appends events in any weaker [Q]. *)
Lemma Steps_mono (P Q : Event → Prop) (w w' : World St) :
  (∀ e, P e → Q e) → Steps P w w' → Steps Q w w'.
Proof.
  intros H (evs & Ht & Hf). exists evs. split; [done |].
  eapply Forall_impl; eauto.
Qed.

End Instances.

(** Takes a goal [respects R m] apart along the structure of [m]. *)
Ltac frame_step :=
  first
    [ apply respects_ret | apply respects_panic | apply respects_exit
    | apply respects_index | apply respects_deref | apply respects_isDone
    | apply frame_Scanln | apply frame_Scan | apply frame_defer
    | apply respects_forEach; intros ?
    | apply respects_check; intros ?
    | apply respects_printErr; intros ?
    | apply respects_Println | apply respects_Print | apply respects_Fatal
    | apply frame_emit | apply frame_cancel
    | apply respects_bind; [| intros ?]
    | match goal with
      | |- respects _ (if ?b then _ else _) => destruct b eqn:?
      | |- respects _ (match ?x with _ => _ end) => destruct x eqn:?
      | |- respects _ (let '(_, _) := ?x in _) => destruct x eqn:?
      end ].

Ltac frame := repeat frame_step.

Section ProgramLemmas.
Context {St : Type} (lib : Datastore St) (env : Env).

(** *** The options object *)

Lemma Keeps_options_Put k v : respects (Keeps options) (Put lib k v).
Proof.
  intros w. unfold Put.
  by destruct (crdt_Put lib k v (store w)) as [[??]?].
Qed.

Lemma Keeps_options_Get k : respects (Keeps options) (Get lib k).
Proof.
  intros w. unfold Get.
  by destruct (crdt_Get lib k (store w)) as [[??]?].
Qed.

Lemma Keeps_options_Query : respects (Keeps options) (Query lib).
Proof.
  intros w. unfold Query.
  by destruct (crdt_Query lib (store w)) as [[??]?].
Qed.

Lemma Keeps_options_switch cmd fields :
  respects (Keeps options) (switch lib env cmd fields).
Proof.
  unfold switch, debug.
  frame; try done;
    first [apply Keeps_options_Put | apply Keeps_options_Get
          | apply Keeps_options_Query].
Qed.

Lemma Keeps_options_loopBody text :
  respects (Keeps options) (loopBody lib env text).
Proof.
  unfold loopBody. frame; try done. apply Keeps_options_switch.
Qed.

Lemma Keeps_options_commandLoop fuel :
  respects (Keeps options) (commandLoop lib env fuel).
Proof.
  induction fuel as [|fuel IH]; simpl; frame; try done.
  apply Keeps_options_loopBody.
Qed.

Lemma Keeps_options_bootstrap b :
  respects (Keeps options) (bootstrap (St := St) env b).
Proof. unfold bootstrap. frame; done. Qed.

Lemma Keeps_options_goroutineStep g :
  respects (Keeps options) (goroutineStep (St := St) env g).
Proof. unfold goroutineStep. frame; done. Qed.

(** *** The events of the command loop *)

Lemma Forall_runHook (P : Event → Prop) o hooks :
  (∀ s, P (Stdout s)) → Forall P (concat (runHook o <$> hooks)).
Proof.
  intros H. induction hooks as [|h hooks IH]; simpl; [constructor |].
  apply Forall_app. split; [| exact IH].
  destruct o as [o|], h; simpl; try constructor;
    repeat case_match; repeat constructor; auto.
Qed.

Lemma Steps_Put (P : Event → Prop) k v :
  P (Crdt (OpPut k v)) → (∀ s, P (Stdout s)) →
  respects (Steps P) (Put lib k v).
Proof.
  intros Hp Hs w. unfold Put.
  destruct (crdt_Put lib k v (store w)) as [[err hooks] s] eqn:E.
  eexists. split; [reflexivity |].
  constructor; [done | by apply Forall_runHook].
Qed.

Lemma Steps_Get (P : Event → Prop) k :
  P (Crdt (OpGet k)) → respects (Steps P) (Get lib k).
Proof.
  intros Hp w. unfold Get.
  destruct (crdt_Get lib k (store w)) as [[v err] s] eqn:E.
  by eapply Steps_one.
Qed.

Lemma Steps_Query (P : Event → Prop) :
  P (Crdt OpQuery) → respects (Steps P) (Query lib).
Proof.
  intros Hp w. unfold Query.
  destruct (crdt_Query lib (store w)) as [[rs err] s] eqn:E.
  by eapply Steps_one.
Qed.

Lemma Steps_switch text cmd rest :
  Fields text = cmd :: rest →
  respects (Steps (lineEvent env text)) (switch lib env cmd (cmd :: rest)).
Proof.
  intros Hf. unfold switch, debug.
  destruct (String.eqb cmd "exit" || String.eqb cmd "quit"); [frame |].
  destruct (String.eqb cmd "debug"); [frame; done |].
  destruct (String.eqb cmd "list");
    [frame; try done; by apply Steps_Query |].
  destruct (String.eqb cmd "get");
    [frame; try done; by apply Steps_Get |].
  destruct (String.eqb_spec cmd "put") as [-> |]; [| frame].
  (* the write of [put]: the line has at least three fields *)
  destruct rest as [|f1 [|w1 ws]]; [frame; done .. |].
  change (index ("put" :: f1 :: w1 :: ws) 1) with (ret (St := St) f1).
  apply respects_bind_ret.
  frame; try done.
  apply Steps_Put; [| done].
  simpl. by exists f1, w1, ws.
Qed.

Lemma Steps_loopBody text :
  respects (Steps (lineEvent env text)) (loopBody lib env text).
Proof.
  unfold loopBody. destruct (Fields text) as [|cmd rest] eqn:Hf.
  - frame; done.
  - frame; try done. by apply Steps_switch.
Qed.

(** *** The events of a whole run *)

Lemma lineEvent_mainEvent text e : lineEvent env text e → mainEvent env e.
Proof. destruct e as [| | | | | | | | | | | | | | | | | |[]| | | | | |]; done. Qed.

Lemma Steps_main_loopBody text :
  respects (Steps (mainEvent env)) (loopBody lib env text).
Proof.
  intros w. eapply Steps_mono; [apply (lineEvent_mainEvent text) |].
  apply Steps_loopBody.
Qed.

Lemma Steps_commandLoop fuel :
  respects (Steps (mainEvent env)) (commandLoop lib env fuel).
Proof.
  induction fuel as [|fuel IH]; simpl; frame; try done.
  apply Steps_main_loopBody.
Qed.

Lemma Steps_mainBody : respects (Steps (mainEvent env)) (mainBody lib env).
Proof.
  unfold mainBody, askBootstrap, loadKey, bootstrap, daemon.
  frame; try done; try (simpl; by auto).
  - intros w. by apply Steps_same_trace.
  - intros w. apply Steps_commandLoop.
Qed.

Lemma Steps_runDeferred :
  respects (Steps (mainEvent env)) (runDeferred (St := St)).
Proof.
  intros w. unfold runDeferred.
  apply (respects_forEach (R := Steps (mainEvent env))).
  intros d. frame; done.
Qed.

Lemma Steps_main : respects (Steps (mainEvent env)) (main lib env).
Proof.
  intros w. unfold main.
  pose proof (Steps_mainBody w) as Hb.
  destruct (mainBody lib env w) as [a w'|c w'|msg w']; simpl in Hb.
  - etrans; [exact Hb | apply Steps_runDeferred].
  - exact Hb.
  - pose proof (Steps_runDeferred w') as Hd.
    destruct (runDeferred w'); simpl in *; by etrans.
Qed.

End ProgramLemmas.

(** *** The outcome of single commands *)

Section Commands.
Context {St : Type} (lib : Datastore St) (env : Env).

Lemma dsOps_app t1 t2 : dsOps (t1 ++ t2) = (dsOps t1 ++ dsOps t2)%list.
Proof. apply omap_app. Qed.

Lemma dsOps_runHook o hooks : dsOps (concat (runHook o <$> hooks)) = [].
Proof.
  induction hooks as [|h hooks IH]; [done |].
  rewrite fmap_cons, concat_cons, dsOps_app, IH, app_nil_r.
  destruct o as [o|], h; simpl; try done; by repeat case_match.
Qed.

(** A line whose first field is [put] and that has a key and at least one
    word of value makes one call of [crdt.Put]; what follows depends on
    the error it returns. *)
Lemma loopBody_put text f1 w1 ws (w : World St) :
  Fields text = "put" :: f1 :: w1 :: ws →
  loopBody lib env text w =
  let k := NewKey env f1 in
  let v := GoStrings.Join (w1 :: ws) " " in
  let '(err, hooks, s) := crdt_Put lib k v (store w) in
  let t := (trace w ++ Crdt (OpPut k v)
              :: concat (runHook (options w) <$> hooks))%list in
  match err with
  | Some e =>
    Ok true (mkWorld s (options w)
               (t ++ [Stdout ("error: " +:+ e +:+ newline)]
                  ++ [Stdout ("> " +:+ newline)])
               (cancelled w) (deferred w) (scans w) (lines w))
  | None =>
    Ok true (mkWorld s (options w) (t ++ [Stdout "> "])
               (cancelled w) (deferred w) (scans w) (lines w))
  end.
Proof.
  intros Hf. unfold loopBody. rewrite Hf.
  unfold switch, bind, index, Put. simpl.
  destruct (crdt_Put lib (NewKey env f1) _ (store w)) as [[[e|] hooks] s];
    simpl; [| done].
  by rewrite <- app_assoc.
Qed.

(** [debug] without a second field. *)
Lemma loopBody_debug_alone text (w : World St) :
  Fields text = ["debug"] →
  loopBody lib env text w =
  Panicked (IndexOutOfRange 1 1)
    (mkWorld (store w) (options w)
       (trace w ++ [Stdout ("debug <on/off/peers>" +:+ newline)])
       (cancelled w) (deferred w) (scans w) (lines w)).
Proof. intros Hf. unfold loopBody. by rewrite Hf. Qed.

(** A first field that is no command: only the prompt is printed. *)
Lemma loopBody_unknown text cmd rest (w : World St) :
  Fields text = cmd :: rest →
  cmd ∉ ["exit"; "quit"; "debug"; "list"; "get"; "put"] →
  loopBody lib env text w =
  Ok true (mkWorld (store w) (options w) (trace w ++ [Stdout "> "])
             (cancelled w) (deferred w) (scans w) (lines w)).
Proof.
  intros Hf Hc. unfold loopBody. rewrite Hf. unfold switch.
  repeat match goal with
         | |- context [String.eqb cmd ?s] =>
           destruct (String.eqb_spec cmd s) as [-> |];
             [exfalso; apply Hc; set_solver |]
         end.
  done.
Qed.

(** The three ways through the bootstrap block. *)
Lemma bootstrap_node (w : World St) : bootstrap env true w = Ok () w.
Proof. done. Qed.

Lemma bootstrap_dial (w : World St) i :
  AddrInfoFromP2pAddr env (NewMultiaddr env (default "" (head (scans w))))
  = Some i →
  bootstrap env false w =
  Ok () (mkWorld (store w) (options w)
           (trace w ++ [Stdout ("Enter the bootstrap node address:" +:+ newline);
                        Stdout ("Bootstrapping..." +:+ newline);
                        Bootstrap (DefaultBootstrapPeers env ++ [i]);
                        TagPeer (ID i) "keep" 100])
           (cancelled w) (deferred w) (tail (scans w)) (lines w)).
Proof.
  intros Hi. unfold bootstrap, bind, Println, emit, Scanln. simpl.
  destruct (scans w) as [|a rest]; simpl in *; rewrite Hi; simpl;
    by rewrite <- !app_assoc.
Qed.

Lemma bootstrap_nil (w : World St) :
  AddrInfoFromP2pAddr env (NewMultiaddr env (default "" (head (scans w))))
  = None →
  bootstrap env false w =
  Panicked NilDereference
    (mkWorld (store w) (options w)
       (trace w ++ [Stdout ("Enter the bootstrap node address:" +:+ newline);
                    Stdout ("Bootstrapping..." +:+ newline)])
       (cancelled w) (deferred w) (tail (scans w)) (lines w)).
Proof.
  intros Hi. unfold bootstrap, bind, Println, emit, Scanln. simpl.
  destruct (scans w) as [|a rest]; simpl in *; rewrite Hi; simpl;
    by rewrite <- !app_assoc.
Qed.

End Commands.

(** *** The panics of the command loop *)

Section Panics.
Context {St : Type} (P : RuntimeError → Prop).

Lemma panics_ret {A} (a : A) : panics (St := St) P (ret a).
Proof. by intros w msg w'. Qed.

Lemma panics_bind {A B} (m : M St A) (k : A → M St B) :
  panics P m → (∀ a, panics P (k a)) → panics P (bind m k).
Proof.
  intros Hm Hk w msg w'. unfold bind.
  destruct (m w) as [a w1 | c w1 | msg1 w1] eqn:E; [| done |].
  - apply Hk.
  - intros [= <- <-]. by eapply Hm.
Qed.

Lemma panics_panic {A} e : P e → panics (St := St) P (panic (A := A) e).
Proof. by intros He w msg w' [= <- _]. Qed.

Lemma panics_emit e : panics (St := St) P (emit e).
Proof. by intros w msg w'. Qed.

Lemma panics_Println s : panics (St := St) P (Println s).
Proof. apply panics_emit. Qed.

Lemma panics_Print s : panics (St := St) P (Print s).
Proof. apply panics_emit. Qed.

Lemma panics_printErr err : panics (St := St) P (printErr err).
Proof. apply panics_bind; [| intros _]; apply panics_Println. Qed.

Lemma panics_deref {A} (p : option A) :
  P NilDereference → panics (St := St) P (deref p).
Proof. intros H. destruct p; [apply panics_ret | by apply panics_panic]. Qed.

Lemma panics_forEach {A} (l : list A) (body : A → M St unit) :
  (∀ x, panics P (body x)) → panics P (forEach l body).
Proof.
  intros H. induction l as [|x l IH]; simpl; [apply panics_ret |].
  apply panics_bind; [apply H | intros _; exact IH].
Qed.

Lemma panics_Put (lib : Datastore St) k v : panics P (Put lib k v).
Proof.
  intros w msg w'. unfold Put.
  by destruct (crdt_Put lib k v (store w)) as [[??]?].
Qed.

Lemma panics_Get (lib : Datastore St) k : panics P (Get lib k).
Proof.
  intros w msg w'. unfold Get.
  by destruct (crdt_Get lib k (store w)) as [[??]?].
Qed.

Lemma panics_Query (lib : Datastore St) : panics P (Query lib).
Proof.
  intros w msg w'. unfold Query.
  by destruct (crdt_Query lib (store w)) as [[??]?].
Qed.

End Panics.

(** Takes a goal [panics P m] apart along the structure of [m]. *)
Ltac panics_step :=
  first
    [ apply panics_ret | apply panics_emit | apply panics_Println
    | apply panics_Print | apply panics_printErr
    | apply panics_Put | apply panics_Get | apply panics_Query
    | apply panics_forEach; intros ?
    | apply panics_bind; [| intros ?]
    | match goal with
      | |- panics _ (if ?b then _ else _) => destruct b eqn:?
      | |- panics _ (match ?x with _ => _ end) => destruct x eqn:?
      | |- panics _ (let '(_, _) := ?x in _) => destruct x eqn:?
      end ].

Section LoopPanics.
Context {St : Type} (lib : Datastore St) (env : Env).

Lemma panics_debug P st : panics (St := St) P (debug env st).
Proof. unfold debug. repeat panics_step. Qed.

(** The switch indexes past the end of the fields only for [debug] without
    a second field; its other panic is the nil result of a failed query. *)
Lemma panics_switch cmd rest :
  panics (λ e, e = NilDereference ∨
               (e = IndexOutOfRange 1 1 ∧ cmd = "debug" ∧ rest = []))
    (switch lib env cmd (cmd :: rest)).
Proof.
  unfold switch.
  destruct (String.eqb cmd "exit" || String.eqb cmd "quit");
    [apply panics_ret |].
  destruct (String.eqb_spec cmd "debug") as [-> |].
  { destruct rest as [|st rest].
    - apply panics_bind; [apply panics_Println | intros _].
      apply panics_bind; [apply panics_panic; by right | intros st].
      apply panics_bind; [apply panics_debug | intros _; apply panics_ret].
    - apply panics_bind; [apply panics_ret | intros _].
      change (index ("debug" :: st :: rest) 1) with (ret (St := St) st).
      apply panics_bind; [apply panics_ret | intros ?].
      apply panics_bind; [apply panics_debug | intros _; apply panics_ret]. }
  destruct (String.eqb cmd "list").
  { apply panics_bind; [apply panics_Query | intros [results err]].
    apply panics_bind; [repeat panics_step | intros _].
    apply panics_bind; [apply panics_deref; by left | intros rs].
    repeat panics_step. }
  destruct (String.eqb cmd "get").
  { destruct rest as [|f1 rest]; [repeat panics_step |].
    change (index (cmd :: f1 :: rest) 1) with (ret (St := St) f1).
    repeat panics_step. }
  destruct (String.eqb cmd "put"); [| apply panics_ret].
  destruct rest as [|f1 [|w1 ws]]; [repeat panics_step .. |].
  change (index (cmd :: f1 :: w1 :: ws) 1) with (ret (St := St) f1).
  repeat panics_step.
Qed.

(** The loop body indexes past the end of the fields on no other line than
    [debug] alone. *)
Lemma loopBody_index_panic text i n (w w' : World St) :
  loopBody lib env text w = Panicked (IndexOutOfRange i n) w' →
  Fields text = ["debug"].
Proof.
  unfold loopBody. destruct (Fields text) as [|cmd rest] eqn:Hf; [done |].
  intros H.
  assert (panics (λ e, e = NilDereference ∨
                       (e = IndexOutOfRange 1 1 ∧ cmd = "debug" ∧ rest = []))
            (flow <- switch lib env cmd (cmd :: rest) ;;
             match flow with
             | FallOut => Print "> " ;; ret true
             | ContinueLoop => ret true
             | ReturnMain => ret false
             end)) as Hp.
  { apply panics_bind; [apply panics_switch | intros ?; repeat panics_step]. }
  destruct (Hp _ _ _ H) as [? | (_ & -> & ->)]; done.
Qed.

End LoopPanics.

(** *** Lines made of plain words *)

Section Words.

Lemma scanFields_sp s sp cur :
  scanFields s 0 sp cur = scanFields s 0 false cur.
Proof. by destruct s. Qed.

Lemma append_cons a s t : String a s +:+ t = String a (s +:+ t).
Proof. done. Qed.

Lemma append_snoc cur c s : snoc cur c +:+ s = cur +:+ String c s.
Proof.
  unfold snoc. induction cur as [|a cur IH]; [done |].
  by rewrite !append_cons, IH.
Qed.

Lemma append_empty_r s : s +:+ "" = s.
Proof. induction s as [|a s IH]; [done | by rewrite append_cons, IH]. Qed.

Lemma flush_word s : isWord s = true → flush s = [s].
Proof. by destruct s. Qed.

Lemma decode_wordChar c s :
  wordChar c = true →
  DecodeRuneInString (String c s) = (byteZ c, 1%nat) ∧
  IsSpace (byteZ c) = false.
Proof.
  unfold wordChar. intros [Hlt Hsp]%andb_true_iff.
  apply negb_true_iff in Hsp. split; [| done].
  unfold DecodeRuneInString, byteAt. simpl. by rewrite Hlt.
Qed.

(** Scanning over a run of word characters extends the open field. *)
Lemma scanFields_word s rest cur :
  allChars wordChar s = true →
  scanFields (s +:+ rest) 0 false cur = scanFields rest 0 false (cur +:+ s).
Proof.
  revert cur. induction s as [|c s IH]; intros cur Hs.
  - simpl. by rewrite append_empty_r.
  - simpl in Hs. apply andb_true_iff in Hs as [Hc Hs].
    destruct (decode_wordChar c (s +:+ rest) Hc) as [Hd Hsp].
    change (String c s +:+ rest) with (String c (s +:+ rest)).
    cbn [scanFields]. rewrite Hd, Hsp. cbn [Nat.pred].
    rewrite IH by done. by rewrite append_snoc.
Qed.

Lemma scanFields_space rest cur :
  scanFields (String " " rest) 0 false cur
  = (flush cur ++ scanFields rest 0 false "")%list.
Proof.
  cbn [scanFields].
  replace (DecodeRuneInString (String " " rest)) with (32, 1%nat)
    by (unfold DecodeRuneInString, byteAt; cbn [String.get fmap option_fmap option_map];
        by change (byteZ " ") with 32).
  change (IsSpace 32) with true. cbn [Nat.pred]. by rewrite scanFields_sp.
Qed.

(** [strings.Fields] gives back the words that single spaces join. *)
Lemma Fields_Join w ws :
  Forall (λ s, isWord s = true) (w :: ws) →
  Fields (GoStrings.Join (w :: ws) " ") = w :: ws.
Proof.
  unfold Fields. revert w. induction ws as [|w' ws IH]; intros w Hw.
  - apply Forall_cons_1 in Hw as [Hw _].
    pose proof Hw as [_ Hc]%andb_true_iff.
    rewrite <- (append_empty_r (GoStrings.Join [w] " ")).
    rewrite scanFields_word by done. simpl. by apply flush_word.
  - apply Forall_cons_1 in Hw as [Hw Hws].
    pose proof Hw as [_ Hc]%andb_true_iff.
    change (GoStrings.Join (w :: w' :: ws) " ")
      with (w +:+ String " " (GoStrings.Join (w' :: ws) " ")).
    rewrite scanFields_word by done.
    rewrite scanFields_space, IH by done.
    by rewrite flush_word.
Qed.

End Words.

(** *** The options object over a whole run *)

Section Configuration.
Context {St : Type} (lib : Datastore St) (env : Env).

#[local] Instance Configures_preorder : PreOrder (Configures (St := St) env).
Proof.
  split; [by left |].
  intros w1 w2 w3 [H1|H1] [H2|H2]; unfold Configures;
    rewrite ?H2, ?H1; auto.
Qed.

Lemma Keeps_Configures (w w' : World St) :
  Keeps options w w' → Configures env w w'.
Proof. by left. Qed.

#[local] Instance Configures_frame :
  Frame (Configures (St := St) env) (λ _, True).
Proof.
  split; [apply _ | ..]; intros; intros w; apply Keeps_Configures.
  - by apply (frame_emit (R := Keeps options)).
  - apply (frame_Scanln (R := Keeps options)).
  - apply (frame_Scan (R := Keeps options)).
  - apply (frame_defer (R := Keeps options)).
  - by apply (frame_cancel (R := Keeps options)).
Qed.

Lemma Configures_mainBody : respects (Configures env) (mainBody lib env).
Proof.
  unfold mainBody, askBootstrap, loadKey, daemon.
  frame; try done.
  - intros w. by right.
  - intros w. apply Keeps_Configures, Keeps_options_bootstrap.
  - intros w. apply Keeps_Configures, Keeps_options_commandLoop.
Qed.

Lemma Keeps_options_runDeferred :
  respects (Keeps options) (runDeferred (St := St)).
Proof.
  intros w. unfold runDeferred.
  apply (respects_forEach (R := Keeps options)).
  intros d. frame; done.
Qed.

Lemma Configures_main : respects (Configures env) (main lib env).
Proof.
  intros w. unfold main.
  pose proof (Configures_mainBody w) as Hb.
  destruct (mainBody lib env w) as [a w'|c w'|msg w']; simpl in Hb.
  - etrans; [exact Hb | apply Keeps_Configures, Keeps_options_runDeferred].
  - exact Hb.
  - pose proof (Keeps_options_runDeferred w') as Hd.
    destruct (runDeferred w'); simpl in *;
      (etrans; [exact Hb | by apply Keeps_Configures]).
Qed.

End Configuration.

(** *** Reads of the datastore *)

Section Reads.
Context {St : Type} (lib : Datastore St) (env : Env).
Hypothesis Get_reads : ∀ k s, (crdt_Get lib k s).2 = s.
Hypothesis Query_reads : ∀ s, (crdt_Query lib s).2 = s.

Lemma Keeps_store_Get k : respects (Keeps store) (Get lib k).
Proof.
  intros w. unfold Get. specialize (Get_reads k (store w)).
  by destruct (crdt_Get lib k (store w)) as [[??]?].
Qed.

Lemma Keeps_store_Query : respects (Keeps store) (Query lib).
Proof.
  intros w. unfold Query. specialize (Query_reads (store w)).
  by destruct (crdt_Query lib (store w)) as [[??]?].
Qed.

Lemma switch_get_reads (R : relation (World St)) {ok} `{!Frame R ok} fields :
  (∀ s, ok (Stdout s)) → (∀ k, respects R (Get lib k)) →
  respects R (switch lib env "get" fields).
Proof. intros Hs Hg. unfold switch. cbn [String.eqb Ascii.eqb Bool.eqb orb]. frame; done. Qed.

Lemma switch_list_reads (R : relation (World St)) {ok} `{!Frame R ok} fields :
  (∀ s, ok (Stdout s)) → respects R (Query lib) →
  respects R (switch lib env "list" fields).
Proof. intros Hs Hg. unfold switch. cbn [String.eqb Ascii.eqb Bool.eqb orb]. frame; done. Qed.

Lemma loopBody_reads (R : relation (World St)) {ok} `{!Frame R ok}
    text cmd rest :
  (∀ s, ok (Stdout s)) → (∀ k, respects R (Get lib k)) →
  respects R (Query lib) →
  Fields text = cmd :: rest → cmd = "get" ∨ cmd = "list" →
  respects R (loopBody lib env text).
Proof.
  intros Hs Hg Hq Hf Hc. unfold loopBody. rewrite Hf.
  apply respects_bind.
  - destruct Hc as [-> | ->];
      [by apply (switch_get_reads R) | by apply (switch_list_reads R)].
  - intros flow. frame; done.
Qed.

End Reads.

(** *** The merge engine *)

Module EngineFacts.
Import Engine.

(** **** The maps, key by key *)

Lemma lookup_applyAddition id m a k :
  applyAddition id m a !! k = stepAdd id k (m !! k) a.
Proof.
  destruct a as [[k' v] p]. unfold applyAddition, stepAdd.
  destruct (decide (k' = k)) as [-> | Hne].
  - destruct (m !! k) as [ks|] eqn:E; [| by rewrite lookup_insert_eq].
    destruct (later _ _ _ _); [by rewrite lookup_insert_eq | done].
  - destruct (m !! k') as [ks|]; [destruct (later _ _ _ _) |];
      by rewrite ?lookup_insert_ne.
Qed.

Lemma lookup_applyAdditions id adds m k :
  foldl (applyAddition id) m adds !! k = foldl (stepAdd id k) (m !! k) adds.
Proof.
  revert m. induction adds as [|a adds IH]; intros m; [done |].
  simpl. by rewrite IH, lookup_applyAddition.
Qed.

Lemma lookup_applyRemoval done m r k :
  applyRemoval done m r !! k = stepRem done k (m !! k) r.
Proof.
  destruct r as [k' anchors]. unfold applyRemoval, stepRem.
  destruct (ready _ _); [| by destruct (decide _)].
  destruct (decide (k' = k)) as [-> | Hne].
  - destruct (m !! k) as [ks|] eqn:E; [| done].
    destruct (covers _ _); [by rewrite lookup_insert_eq | done].
  - destruct (m !! k') as [ks|]; [destruct (covers _ _) |];
      by rewrite ?lookup_insert_ne.
Qed.

Lemma lookup_applyRemovals done rems m k :
  foldl (applyRemoval done) m rems !! k = foldl (stepRem done k) (m !! k) rems.
Proof.
  revert m. induction rems as [|a rems IH]; intros m; [done |].
  simpl. by rewrite IH, lookup_applyRemoval.
Qed.

(** **** The order on priorities and identifiers *)

Lemma ltb_lt a b : String.ltb a b = true ↔ String_as_OT.lt a b.
Proof.
  unfold String.ltb. rewrite <- String_as_OT.cmp_lt. unfold String_as_OT.cmp.
  by destruct (String.compare a b).
Qed.

Lemma ltb_irrefl a : String.ltb a a = false.
Proof.
  pose proof (proj2 (String_as_OT.cmp_eq a a) eq_refl) as H.
  unfold String_as_OT.cmp in H. unfold String.ltb. by rewrite H.
Qed.

Lemma ltb_trans a b c :
  String.ltb a b = true → String.ltb b c = true → String.ltb a c = true.
Proof. rewrite !ltb_lt. apply String_as_OT.lt_trans. Qed.

Lemma ltb_total a b : a ≠ b → String.ltb a b = true ∨ String.ltb b a = true.
Proof.
  intros Hne. unfold String.ltb. rewrite (String.compare_antisym b a).
  destruct (String.compare a b) eqn:E; simpl; auto.
  by apply String_as_OT.cmp_eq in E.
Qed.

Lemma ltb_asym a b : String.ltb a b = true → String.ltb b a = false.
Proof.
  intros H. destruct (String.ltb b a) eqn:E; [| done].
  pose proof (ltb_trans _ _ _ H E) as Hc. by rewrite ltb_irrefl in Hc.
Qed.

Lemma later_spec p i q j :
  later p i q j = true ↔ q < p ∨ (p = q ∧ String.ltb j i = true).
Proof.
  unfold later. rewrite orb_true_iff, andb_true_iff, Z.ltb_lt, Z.eqb_eq.
  tauto.
Qed.

Lemma later_same_id p q i : later p i q i = (q <? p).
Proof. unfold later. by rewrite ltb_irrefl, andb_false_r, orb_false_r. Qed.

Lemma later_antisym p i q j :
  later p i q j = false → later q j p i = false → p = q ∧ i = j.
Proof.
  intros H1 H2. apply not_true_iff_false in H1, H2.
  rewrite later_spec in H1, H2.
  assert (p = q) as -> by lia. split; [done |].
  destruct (decide (i = j)) as [| Hne]; [done |].
  destruct (ltb_total i j Hne); exfalso; [apply H2 | apply H1]; auto.
Qed.

Lemma later_trans p i q j r k :
  later p i q j = true → later q j r k = true → later p i r k = true.
Proof.
  rewrite !later_spec. intros [H1 | [-> H1]] [H2 | [-> H2]]; try (left; lia).
  right. split; [done |]. by eapply ltb_trans.
Qed.

Lemma later_asym p i q j : later p i q j = true → later q j p i = false.
Proof.
  intros H. destruct (later q j p i) eqn:E; [| done].
  pose proof (later_trans _ _ _ _ _ _ H E) as Hc.
  by rewrite later_same_id, Z.ltb_irrefl in Hc.
Qed.

(** Not later than something that a third is later than. *)
Lemma not_later_trans p i q j r k :
  later p i q j = false → later r k q j = true → later p i r k = false.
Proof.
  intros H1 H2. destruct (later p i r k) eqn:E; [| done].
  by rewrite (later_trans _ _ _ _ _ _ E H2) in H1.
Qed.

(** A lower priority under the same identifier is no later. *)
Lemma not_later_le p p' i q j :
  p' ≤ p → later p i q j = false → later p' i q j = false.
Proof.
  intros Hle H. apply not_true_iff_false in H. apply not_true_iff_false.
  rewrite later_spec in *. intros [? | [-> ?]]; apply H; [left; lia |].
  destruct (decide (p = q)) as [-> |]; [by right | left; lia].
Qed.

(** **** The additions and removals of one delta *)

(** The additions of a delta act on a key as its best addition alone. *)
Lemma stepAdd_merge1 id k st0 acc a :
  stepAdd id k (merge1 id st0 acc) a = merge1 id st0 (pickStep k acc a).
Proof.
  destruct a as [[k' v] p]. unfold stepAdd, pickStep.
  destruct (decide (k' = k)) as [_ |]; [| done].
  destruct acc as [[v0 p0]|]; [| done]. simpl.
  destruct st0 as [ks|]; simpl.
  - destruct (later p0 id _ _) eqn:E0; simpl.
    + rewrite later_same_id. destruct (p0 <? p) eqn:Ep; simpl; [| by rewrite E0].
      apply Z.ltb_lt in Ep.
      assert (later p id (current_priority ks) (current_id ks) = true) as ->;
        [| done].
      apply later_spec in E0. apply later_spec. lia.
    + destruct (later p id _ _) eqn:E1.
      * assert ((p0 <? p) = true) as ->; [| by simpl; rewrite E1].
        apply Z.ltb_lt. destruct (Z.lt_ge_cases p0 p) as [| Hle]; [done |].
        by rewrite (not_later_le _ _ _ _ _ Hle E0) in E1.
      * destruct (p0 <? p); simpl; by rewrite ?E0, ?E1.
  - rewrite later_same_id. by destruct (p0 <? p).
Qed.

Lemma foldl_stepAdd id k st0 adds acc :
  foldl (stepAdd id k) (merge1 id st0 acc) adds
  = merge1 id st0 (foldl (pickStep k) acc adds).
Proof.
  revert acc. induction adds as [|a adds IH]; intros acc; [done |].
  simpl. by rewrite stepAdd_merge1, IH.
Qed.

Lemma foldl_stepRem done k rems ks :
  foldl (stepRem done k) (Some ks) rems
  = Some (mark ks (existsb (hit done k (current_id ks)) rems)).
Proof.
  revert ks. induction rems as [|[k' anchors] rems IH]; intros ks; [done |].
  simpl. unfold hit at 1. simpl.
  destruct (decide (k' = k)) as [-> | Hne].
  - rewrite bool_decide_true by done. simpl.
    destruct (ready done (k, anchors)); simpl; [| apply IH].
    destruct (covers anchors (current_id ks)); simpl; [| apply IH].
    rewrite IH. simpl. by destruct (existsb _ _).
  - rewrite bool_decide_false by done. simpl. apply IH.
Qed.

Lemma foldl_stepRem_None done k rems :
  foldl (stepRem done k) None rems = None.
Proof.
  induction rems as [|[k' anchors] rems IH]; [done |].
  simpl. destruct (decide _); [destruct (ready _ _) |]; apply IH.
Qed.

Lemma foldl_pickStep k adds acc :
  match foldl (pickStep k) acc adds with
  | None => acc = None ∧ ∀ v p, (k, v, p) ∉ adds
  | Some (v, p) =>
    (acc = Some (v, p) ∨ (k, v, p) ∈ adds) ∧
    (∀ v0 p0, acc = Some (v0, p0) → p0 ≤ p) ∧
    (∀ v' p', (k, v', p') ∈ adds → p' ≤ p)
  end.
Proof.
  revert acc. induction adds as [|[[k' v1] p1] adds IH]; intros acc.
  - simpl. destruct acc as [[v p]|].
    + split; [by left |]. split; [intros ?? [= _ ->]; lia |].
      intros ?? H. by apply elem_of_nil in H.
    + split; [done |]. intros ?? H. by apply elem_of_nil in H.
  - simpl. specialize (IH (pickStep k acc (k', v1, p1))).
    destruct (foldl _ _ adds) as [[v p]|].
    + destruct IH as (Hin & Hacc & Hall). unfold pickStep in Hin, Hacc.
      destruct (decide (k' = k)) as [-> | Hne].
      * destruct acc as [[v0 p0]|].
        -- destruct (p0 <? p1) eqn:E.
           ++ apply Z.ltb_lt in E. split; [| split].
              ** destruct Hin as [[= <- <-] | Hin]; right;
                   [apply list_elem_of_here | by apply list_elem_of_further].
              ** intros ?? [= <- <-]. specialize (Hacc _ _ eq_refl). lia.
              ** intros v' p' [[= -> ->] | H]%elem_of_cons; [| by eapply Hall].
                 apply (Hacc _ _ eq_refl).
           ++ apply Z.ltb_ge in E. split; [| split].
              ** destruct Hin as [Hin | Hin]; [by left |].
                 right. by apply list_elem_of_further.
              ** done.
              ** intros v' p' [[= -> ->] | H]%elem_of_cons; [| by eapply Hall].
                 specialize (Hacc _ _ eq_refl). lia.
        -- split; [| split]; [| done |].
           ++ destruct Hin as [[= <- <-] | Hin]; right;
                [apply list_elem_of_here | by apply list_elem_of_further].
           ++ intros v' p' [[= -> ->] | H]%elem_of_cons; [| by eapply Hall].
              apply (Hacc _ _ eq_refl).
      * split; [| split]; [| done |].
        -- destruct Hin as [Hin | Hin]; [by left |].
           right. by apply list_elem_of_further.
        -- intros v' p' [[= -> ->] | H]%elem_of_cons; [done | by eapply Hall].
    + destruct IH as [Hacc Hall]. unfold pickStep in Hacc.
      destruct (decide (k' = k)) as [-> | Hne].
      * by destruct acc as [[v0 p0]|]; [destruct (p0 <? p1) |].
      * split; [done |].
        intros v p [[= -> ->] | H]%elem_of_cons; [done | by eapply Hall].
Qed.

Lemma pick_None k adds v p : pick k adds = None → (k, v, p) ∉ adds.
Proof.
  intros H. pose proof (foldl_pickStep k adds None) as Hp.
  unfold pick in H. rewrite H in Hp. apply Hp.
Qed.

Lemma pick_Some k adds v p :
  pick k adds = Some (v, p) →
  (k, v, p) ∈ adds ∧ ∀ v' p', (k, v', p') ∈ adds → p' ≤ p.
Proof.
  intros H. pose proof (foldl_pickStep k adds None) as Hp.
  unfold pick in H. rewrite H in Hp. destruct Hp as ([? | ?] & _ & ?); done.
Qed.

(** **** The Applied Set determines the Materialized State *)

Lemma ready_spec done x :
  ready done x = true ↔ ∀ a, a ∈ x.2 → a ∈ done.
Proof.
  unfold ready, isApplied. rewrite forallb_forall. split.
  - intros H a Ha%list_elem_of_In. specialize (H a Ha).
    by apply bool_decide_eq_true in H.
  - intros H a Ha%list_elem_of_In. apply bool_decide_eq_true. by apply H.
Qed.

(** A removal that is ready stays ready as the Applied Set grows. *)
Lemma ready_mono (S S' : gset Id) x :
  S ⊆ S' → ready S x = true → ready S' x = true.
Proof. rewrite !ready_spec. intros Hs H a Ha. by apply Hs, H. Qed.

Lemma hit_spec done k i rems :
  existsb (hit done k i) rems = true ↔
  ∃ anchors, (k, anchors) ∈ rems ∧ ready done (k, anchors) = true ∧
             i ∈ anchors.
Proof.
  rewrite existsb_exists. split.
  - intros ([k' anchors] & Hin%list_elem_of_In & Hh). unfold hit in Hh.
    simpl in Hh. apply andb_true_iff in Hh as [[Hk Hr]%andb_true_iff Hc].
    apply bool_decide_eq_true in Hk as ->.
    apply bool_decide_eq_true in Hc. eauto.
  - intros (anchors & Hin & Hr & Hi). exists (k, anchors).
    split; [by apply list_elem_of_In |]. unfold hit. simpl.
    rewrite bool_decide_true by done. rewrite Hr. simpl.
    by apply bool_decide_eq_true.
Qed.

Section Convergence.
Context (dag : gmap Id Delta).

(** At most one state of a key fits a set of applied deltas. *)
Lemma Desc_unique S k st1 st2 : Desc dag S k st1 → Desc dag S k st2 → st1 = st2.
Proof.
  destruct st1 as [ks1|], st2 as [ks2|]; simpl; [| | | done].
  - intros (Hin1 & (d1 & Hd1 & Hp1) & Hmax1 & Ht1)
           (Hin2 & (d2 & Hd2 & Hp2) & Hmax2 & Ht2).
    pose proof (proj1 (pick_Some _ _ _ _ Hp1)) as Ha1.
    pose proof (proj1 (pick_Some _ _ _ _ Hp2)) as Ha2.
    destruct (later_antisym _ _ _ _ (Hmax1 _ _ _ _ Hin2 Hd2 Ha2)
                (Hmax2 _ _ _ _ Hin1 Hd1 Ha1)) as [Hp Hi].
    destruct ks1 as [v1 p1 i1 t1], ks2 as [v2 p2 i2 t2]. simpl in *. subst.
    rewrite Hd1 in Hd2. injection Hd2 as <-.
    rewrite Hp1 in Hp2. injection Hp2 as <-.
    f_equal. rewrite <- Ht2 in Ht1.
    destruct t1, t2; try done; [by destruct Ht1 as [-> _] | by destruct Ht1 as [_ ->]].
  - intros (Hin1 & (d1 & Hd1 & Hp1) & _) Hnone.
    by destruct (Hnone _ _ _ _ Hin1 Hd1 (proj1 (pick_Some _ _ _ _ Hp1))).
  - intros Hnone (Hin1 & (d1 & Hd1 & Hp1) & _).
    by destruct (Hnone _ _ _ _ Hin1 Hd1 (proj1 (pick_Some _ _ _ _ Hp1))).
Qed.

Section Step.
Context (S : gset Id) (id : Id) (delta : Delta) (wait : list (Key * list Id)).
Hypothesis Hfresh : id ∉ S.
Hypothesis Hdelta : dag !! id = Some delta.
Hypothesis Hwait : Waits dag S wait.

(** The removals that [Apply] tries: those that waited and those of the
    delta. *)
Lemma tried_spec x :
  x ∈ (wait ++ removals delta)%list →
  ∃ id' delta', id' ∈ {[id]} ∪ S ∧ dag !! id' = Some delta' ∧
                x ∈ removals delta'.
Proof.
  intros [Hw | Hr]%elem_of_app.
  - apply Hwait in Hw as [(id' & delta' & Hin & Hd & Hx) _].
    exists id', delta'. split; [apply elem_of_union; by right | done].
  - exists id, delta.
    split; [apply elem_of_union; left; by apply elem_of_singleton | done].
Qed.

(** A removal of an applied delta that has become ready is among those
    that [Apply] tries, unless it was ready before. *)
Lemma tried_complete id' delta' x :
  id' ∈ {[id]} ∪ S → dag !! id' = Some delta' → x ∈ removals delta' →
  ready S x = false ∨ id' = id →
  x ∈ (wait ++ removals delta)%list.
Proof.
  intros [->%elem_of_singleton | Hin]%elem_of_union Hd Hx Hnew.
  - rewrite Hdelta in Hd. injection Hd as <-. apply elem_of_app. by right.
  - destruct Hnew as [Hnr | ->]; [| done].
    apply elem_of_app. left. apply Hwait. split; [| done].
    by exists id', delta'.
Qed.

(** The removals in effect once the delta is applied: those that were in
    effect, and of those that [Apply] tries the ones that are ready. *)
Lemma removed_step k i :
  removed dag ({[id]} ∪ S) k i ↔
  removed dag S k i ∨
  existsb (hit ({[id]} ∪ S) k i) (wait ++ removals delta) = true.
Proof.
  rewrite hit_spec. split.
  - intros (id' & delta' & anchors & Hin & Hd & Hr & Hall & Hi).
    destruct (ready S (k, anchors)) eqn:Er.
    + destruct (decide (id' = id)) as [-> | Hne].
      * right. exists anchors. split; [| split; [| done]].
        -- eapply tried_complete; eauto.
        -- by apply ready_spec.
      * left. exists id', delta', anchors.
        split; [by apply elem_of_union in Hin as [?%elem_of_singleton | ?] |].
        split; [done |]. split; [done |].
        split; [| done]. by apply (proj1 (ready_spec S (k, anchors))).
    + right. exists anchors. split; [| split; [| done]].
      * eapply tried_complete; eauto.
      * by apply ready_spec.
  - intros [(id' & delta' & anchors & Hin & Hd & Hr & Hall & Hi)
           | (anchors & Hin & Hr & Hi)].
    + exists id', delta', anchors. split; [apply elem_of_union; by right |].
      split; [done |]. split; [done |]. split; [| done].
      intros a Ha. apply elem_of_union. right. by apply Hall.
    + destruct (tried_spec _ Hin) as (id' & delta' & Hin' & Hd & Hx).
      exists id', delta', anchors. split; [done |]. split; [done |].
      split; [done |]. split; [| done].
      by apply (proj1 (ready_spec _ (k, anchors))).
Qed.

(** No removal was in effect on a delta that is not applied. *)
Lemma removed_fresh k : ¬ removed dag S k id.
Proof.
  intros (id' & delta' & anchors & _ & _ & _ & Hall & Hi).
  by apply Hfresh, Hall.
Qed.

Lemma Desc_new k v p :
  pick k (additions delta) = Some (v, p) →
  (∀ id' delta' v' p', id' ∈ S → dag !! id' = Some delta' →
     (k, v', p') ∈ additions delta' → later p' id' p id = false) →
  Desc dag ({[id]} ∪ S) k
    (Some (mark (mkKeyState v p id false)
             (existsb (hit ({[id]} ∪ S) k id) (wait ++ removals delta)))).
Proof.
  intros Hpick Hmax.
  set (b := existsb _ _).
  assert (mark (mkKeyState v p id false) b = mkKeyState v p id b) as ->
    by by destruct b.
  simpl. split; [set_solver |]. split; [eauto |]. split.
  - intros id' delta' v' p' [->%elem_of_singleton | Hin]%elem_of_union Hd Ha.
    + rewrite Hdelta in Hd. injection Hd as <-. rewrite later_same_id.
      apply Z.ltb_ge. by eapply (proj2 (pick_Some _ _ _ _ Hpick)).
    + by eapply Hmax.
  - rewrite removed_step. fold b. split; [by right |].
    intros [Hr | Hb]; [by apply removed_fresh in Hr | done].
Qed.

Lemma Desc_keep k ks :
  Desc dag S k (Some ks) →
  (∀ v p, (k, v, p) ∈ additions delta →
          later p id (current_priority ks) (current_id ks) = false) →
  Desc dag ({[id]} ∪ S) k
    (Some (mark ks (existsb (hit ({[id]} ∪ S) k (current_id ks))
                      (wait ++ removals delta)))).
Proof.
  intros (Hin & Hpick & Hmax & Htomb) Hlow.
  assert (∀ b, current_id (mark ks b) = current_id ks) as Hid by by intros [].
  assert (∀ b, current_value (mark ks b) = current_value ks) as Hv
    by by intros [].
  assert (∀ b, current_priority (mark ks b) = current_priority ks) as Hp
    by by intros [].
  simpl. rewrite Hid, Hv, Hp.
  split; [apply elem_of_union; by right |]. split; [done |]. split.
  - intros id' delta' v' p' [->%elem_of_singleton | Hin']%elem_of_union Hd Ha.
    + rewrite Hdelta in Hd. injection Hd as <-. by eapply Hlow.
    + by eapply Hmax.
  - rewrite removed_step, <- Htomb.
    destruct (existsb _ _), (is_tombstoned ks) eqn:Et; simpl;
      rewrite ?Et; intuition congruence.
Qed.

(** Applying a delta whose parents are applied takes the state that fits
    the Applied Set to the state that fits the Applied Set with the
    delta. *)
Lemma Desc_step k st :
  Desc dag S k st →
  Desc dag ({[id]} ∪ S) k
    (foldl (stepRem ({[id]} ∪ S) k)
       (foldl (stepAdd id k) st (additions delta))
       (wait ++ removals delta)).
Proof.
  intros HD.
  change (foldl (stepAdd id k) st (additions delta))
    with (foldl (stepAdd id k) (merge1 id st None) (additions delta)).
  rewrite foldl_stepAdd. fold (pick k (additions delta)).
  destruct (pick k (additions delta)) as [[v p]|] eqn:Hpick; simpl.
  - destruct st as [ks|].
    + destruct (later p id _ _) eqn:El.
      * rewrite foldl_stepRem. simpl.
        apply Desc_new; [done |].
        destruct HD as (_ & _ & Hmax & _).
        intros id' delta' v' p' Hin Hd Ha.
        eapply not_later_trans; [by eapply Hmax | done].
      * rewrite foldl_stepRem. apply Desc_keep; [done |].
        intros v' p' Ha. eapply not_later_le; [| exact El].
        by eapply (proj2 (pick_Some _ _ _ _ Hpick)).
    + rewrite foldl_stepRem. simpl.
      apply Desc_new; [done |].
      intros id' delta' v' p' Hin Hd Ha. by destruct (HD _ _ v' p' Hin Hd).
  - destruct st as [ks|].
    + rewrite foldl_stepRem. apply Desc_keep; [done |].
      intros v' p' Ha. by destruct (pick_None _ _ v' p' Hpick).
    + rewrite foldl_stepRem_None. simpl.
      intros id' delta' v' p' [->%elem_of_singleton | Hin]%elem_of_union Hd.
      * rewrite Hdelta in Hd. injection Hd as <-. by apply pick_None.
      * by eapply HD.
Qed.

(** The removals that wait on are those that still lack an anchor. *)
Lemma Waits_step :
  Waits dag ({[id]} ∪ S)
    (List.filter (λ x, negb (ready ({[id]} ∪ S) x)) (wait ++ removals delta)).
Proof.
  intros x. rewrite list_elem_of_In, filter_In, <- list_elem_of_In.
  rewrite negb_true_iff. split.
  - intros [Hin Hr]. split; [by apply tried_spec | done].
  - intros [(id' & delta' & Hin & Hd & Hx) Hr]. split; [| done].
    eapply tried_complete; eauto.
    destruct (ready S x) eqn:Er; [| by left].
    rewrite (ready_mono S ({[id]} ∪ S) x) in Hr;
      [done | apply union_subseteq_r | done].
Qed.

End Step.

Lemma Inv_empty : Inv dag (mkReplica ∅ ∅ []).
Proof.
  split; [intros id Hin; set_solver |]. split.
  - intros k. simpl. rewrite lookup_empty. simpl.
    intros id ? ? ? Hin. set_solver.
  - intros x. simpl. split; [by intros ?%elem_of_nil |].
    intros [(id & ? & Hin & _) _]. set_solver.
Qed.

Lemma Inv_Apply r id delta r' :
  Inv dag r → dag !! id = Some delta →
  Apply id delta r = inl r' → Inv dag r'.
Proof.
  intros (Hc & HD & Hw) Hd. unfold Apply, isApplied.
  case_bool_decide as Hin; [by intros [= <-] |].
  destruct (forallb _ (parents delta)) eqn:Hps; [| done].
  intros [= <-]. simpl.
  assert (∀ p, p ∈ parents delta → p ∈ applied r) as Hparents.
  { intros p Hp%list_elem_of_In.
    rewrite forallb_forall in Hps. specialize (Hps p Hp).
    by apply bool_decide_eq_true in Hps. }
  split; [| split].
  - intros id' [->%elem_of_singleton | Hin']%elem_of_union.
    + exists delta. split; [done |]. intros p Hp. set_solver.
    + destruct (Hc _ Hin') as (d & Hd' & Hp'). exists d. split; [done |].
      intros p Hp. set_solver.
  - intros k. cbn [state applied].
    rewrite lookup_applyRemovals, lookup_applyAdditions.
    by apply Desc_step.
  - by apply Waits_step.
Qed.

Lemma Reachable_Inv r : Reachable dag r → Inv dag r.
Proof.
  intros Hr. induction Hr as [| r id delta r' _ IH Hd Ha].
  - apply Inv_empty.
  - by eapply Inv_Apply.
Qed.

(** The sync processor changes a replica through [Apply] only. *)
Lemma Reachable_Learn limit id r :
  Reachable dag r → Reachable dag (Learn limit dag id r).
Proof.
  revert id r. induction limit as [|limit IH]; intros id r Hr; [done |].
  simpl. destruct (isApplied _ _); [done |].
  destruct (dag !! id) as [delta|] eqn:Hd; [| done].
  assert (∀ ps r0, Reachable dag r0 →
                   Reachable dag (foldl (λ r p, Learn limit dag p r) r0 ps))
    as Hps.
  { intros ps. induction ps as [|p ps IHps]; intros r0 H0; [done |].
    simpl. by apply IHps, IH. }
  specialize (Hps (parents delta) r Hr).
  destruct (Apply id delta _) as [r'|] eqn:Ha; [| done].
  by eapply reach_apply.
Qed.

Lemma Reachable_learnAll limit heads r :
  Reachable dag r → Reachable dag (learnAll limit dag heads r).
Proof.
  revert r. induction heads as [|h heads IH]; intros r Hr; [done |].
  simpl. by apply IH, Reachable_Learn.
Qed.

End Convergence.

End EngineFacts.

(** *** Leaving through [os.Exit] *)

Section Exits.
Context {St : Type} (P : Z → World St → Prop).

Lemma exits_ret {A} (a : A) : exits P (ret a).
Proof. by intros w c w'. Qed.

Lemma exits_bind {A B} (m : M St A) (k : A → M St B) :
  exits P m → (∀ a, exits P (k a)) → exits P (bind m k).
Proof.
  intros Hm Hk w c w'. unfold bind.
  destruct (m w) as [a w1 | c1 w1 | msg1 w1] eqn:E; [| | done].
  - apply Hk.
  - intros [= <- <-]. by eapply Hm.
Qed.

Lemma exits_panic {A} e : exits P (panic (A := A) e).
Proof. by intros w c w'. Qed.

Lemma exits_emit e : exits P (emit e).
Proof. by intros w c w'. Qed.

Lemma exits_Fatal {A} e :
  (∀ w, P 1 (say [LogFatal e] w)) → exits P (Fatal (A := A) e).
Proof. intros H w c w' [= <- <-]. apply H. Qed.

Lemma exits_check err :
  (∀ e w, P 1 (say [LogFatal e] w)) → exits P (check err).
Proof.
  intros H. destruct err; [by apply exits_Fatal | apply exits_ret].
Qed.

Lemma exits_Scanln : exits P Scanln.
Proof. intros w c w'. unfold Scanln. by destruct (scans w). Qed.

Lemma exits_Scan : exits P Scan.
Proof. intros w c w'. unfold Scan. by destruct (lines w). Qed.

Lemma exits_defer d : exits P (defer d).
Proof. by intros w c w'. Qed.

Lemma exits_setOptions o : exits P (setOptions o).
Proof. by intros w c w'. Qed.

Lemma exits_cancel n : exits P (cancel n).
Proof. by intros w c w'. Qed.

Lemma exits_index fields i : exits P (index fields i).
Proof.
  unfold index. destruct (fields !! i); [apply exits_ret | apply exits_panic].
Qed.

Lemma exits_deref {A} (p : option A) : exits P (deref p).
Proof. destruct p; [apply exits_ret | apply exits_panic]. Qed.

Lemma exits_forEach {A} (l : list A) (body : A → M St unit) :
  (∀ x, exits P (body x)) → exits P (forEach l body).
Proof.
  intros H. induction l as [|x l IH]; simpl; [apply exits_ret |].
  apply exits_bind; [apply H | intros _; exact IH].
Qed.

Lemma exits_Put (lib : Datastore St) k v : exits P (Put lib k v).
Proof.
  intros w c w'. unfold Put.
  by destruct (crdt_Put lib k v (store w)) as [[??]?].
Qed.

Lemma exits_Get (lib : Datastore St) k : exits P (Get lib k).
Proof.
  intros w c w'. unfold Get.
  by destruct (crdt_Get lib k (store w)) as [[??]?].
Qed.

Lemma exits_Query (lib : Datastore St) : exits P (Query lib).
Proof.
  intros w c w'. unfold Query.
  by destruct (crdt_Query lib (store w)) as [[??]?].
Qed.

End Exits.

(** Takes a goal [exits P m] apart along the structure of [m]. *)
Ltac exits_step :=
  first
    [ apply exits_ret | apply exits_panic | apply exits_emit
    | apply exits_Scanln | apply exits_Scan | apply exits_defer
    | apply exits_setOptions | apply exits_cancel
    | apply exits_index | apply exits_deref
    | apply exits_Put | apply exits_Get | apply exits_Query
    | apply exits_forEach; intros ?
    | apply exits_check; intros ? ?
    | apply exits_Fatal; intros ?
    | apply exits_bind; [| intros ?]
    | match goal with
      | |- exits _ (if ?b then _ else _) => destruct b eqn:?
      | |- exits _ (match ?x with _ => _ end) => destruct x eqn:?
      | |- exits _ (let '(_, _) := ?x in _) => destruct x eqn:?
      end ].

Section LoopExits.
Context {St : Type} (lib : Datastore St) (env : Env).

Lemma exits_loopBody P text : exits (St := St) P (loopBody lib env text).
Proof.
  unfold loopBody, switch, debug, printErr, Println, Print.
  repeat exits_step.
Qed.

Lemma exits_commandLoop P fuel :
  exits (St := St) P (commandLoop lib env fuel).
Proof.
  induction fuel as [|fuel IH]; cbn [commandLoop];
    repeat first [apply exits_loopBody | exact IH | exits_step].
Qed.

Lemma exits_runDeferred P : exits (St := St) P runDeferred.
Proof.
  intros w. unfold runDeferred.
  apply exits_forEach. intros d. destruct d; exits_step.
Qed.

End LoopExits.

Section LoopEvents.
Context {St : Type} (lib : Datastore St) (env : Env).

(** The loop calls neither [logger.Fatal] nor anything of the set-up. *)
Lemma Steps_any_line fuel :
  respects (Steps (λ e, ∃ text, lineEvent env text e))
    (commandLoop lib env fuel).
Proof.
  induction fuel as [|fuel IH]; simpl; frame; try done.
  intros w. eapply Steps_mono; [| apply Steps_loopBody]. eauto.
Qed.

End LoopEvents.

(** *** More computations that do not panic *)

Section Quiet.
Context {St : Type} (P : RuntimeError → Prop).

Lemma panics_Scanln : panics (St := St) P Scanln.
Proof. intros w msg w'. unfold Scanln. by destruct (scans w). Qed.

Lemma panics_Fatal {A} e : panics (St := St) P (Fatal (A := A) e).
Proof. by intros w msg w'. Qed.

Lemma panics_check err : panics (St := St) P (check err).
Proof. destruct err; [apply panics_Fatal | apply panics_ret]. Qed.

Lemma panics_setOptions o : panics (St := St) P (setOptions o).
Proof. by intros w msg w'. Qed.

Lemma panics_defer d : panics (St := St) P (defer d).
Proof. by intros w msg w'. Qed.

End Quiet.

(** Takes a goal [panics P m] apart, also over the set-up of [main]. *)
Ltac quiet_step :=
  first [ apply panics_Scanln | apply panics_check | apply panics_Fatal
        | apply panics_setOptions | panics_step ].

(** Shows that a part of [main] never panics. *)
Ltac calm := repeat first [ apply panics_defer | quiet_step ].

(** *** The deferred calls *)

Section Deferred.
Context {St : Type}.

(** The deferred calls run one after the other, and nothing else does. *)
Lemma forEach_cleanup l (w : World St) :
  ∃ w', forEach l (λ d, match d with
                        | DeferCancel n => cancel n
                        | DeferClose what => emit (Close what)
                        end) w = Ok () w' ∧
        trace w' = (trace w ++ (cleanupEvent <$> l))%list ∧
        lines w' = lines w.
Proof.
  revert w. induction l as [|d l IH]; intros w.
  - exists w. by rewrite app_nil_r.
  - cbn [forEach]. unfold bind.
    destruct d as [n|what]; cbn [cancel emit];
      match goal with
      | |- context [forEach l _ ?w1] => destruct (IH w1) as (w' & -> & Ht & Hl)
      end;
      exists w'; (split; [done |]); rewrite Ht, Hl; simpl;
      by rewrite <- app_assoc.
Qed.

End Deferred.

(** Lifts what holds of the events of [mainBody] and of the deferred
    calls to a run of [main]. *)
Lemma Steps_main_of {St} (lib : Datastore St) (env : Env)
    (P : Event → Prop) :
  (∀ e, isCleanup e → P e) →
  respects (Steps P) (mainBody lib env) →
  respects (Steps P) (main lib env).
Proof.
  intros Hc Hb w. unfold main. specialize (Hb w).
  assert (∀ w1 : World St, Steps P w1 (worldOf (runDeferred w1))) as Hd.
  { intros w1. unfold runDeferred.
    destruct (forEach_cleanup (deferred w1) w1) as (w2 & -> & Ht & _).
    exists (cleanupEvent <$> deferred w1). split; [done |].
    apply Forall_fmap, Forall_forall. intros d _. apply Hc. by destruct d. }
  destruct (mainBody lib env w) as [a w1|c w1|msg w1]; simpl in Hb.
  - etrans; [exact Hb | apply Hd].
  - exact Hb.
  - specialize (Hd w1). destruct (runDeferred w1); simpl in *; by etrans.
Qed.

(** *** Fatal errors of the set-up *)

Section Fatal.
Context {St : Type} (Q : Event → Prop).

Lemma fatal_never {A} (m : M St A) : exits (λ _ _, False) m → fatal Q m.
Proof. intros H w c w' E. destruct (H _ _ _ E). Qed.

Lemma fatal_Fatal {A} e : fatal (St := St) Q (Fatal (A := A) e).
Proof. intros w c w' [= <- <-]. split; [done |]. by exists [], e. Qed.

Lemma fatal_check err : fatal (St := St) Q (check err).
Proof. destruct err; [apply fatal_Fatal | by intros w c w']. Qed.

Lemma fatal_bind {A B} (m : M St A) (k : A → M St B) :
  respects (Steps Q) m → fatal Q m → (∀ a, fatal Q (k a)) →
  fatal Q (bind m k).
Proof.
  intros Hs Hm Hk w c w'. unfold bind. specialize (Hs w).
  destruct (m w) as [a w1|c1 w1|] eqn:E; [| | done].
  - intros H. destruct (Hk a _ _ _ H) as (-> & evs & e & Ht & Hf).
    destruct Hs as (evs0 & Ht0 & Hf0). split; [done |].
    exists (evs0 ++ evs)%list, e. simpl in Ht0. rewrite Ht, Ht0.
    split; [by rewrite <- !app_assoc | by apply Forall_app].
  - intros [= <- <-]. by apply Hm.
Qed.

End Fatal.

Section FatalMain.
Context {St : Type} (lib : Datastore St) (env : Env).

(** [main] exits only from its set-up, through [logger.Fatal]. *)
Lemma fatal_mainBody : fatal setupEvent (mainBody lib env).
Proof.
  unfold mainBody, askBootstrap, loadKey, bootstrap, daemon.
  repeat first
    [ apply fatal_check | apply fatal_Fatal
    | match goal with
      | |- fatal _ (if ?b then _ else _) => destruct b
      | |- fatal _ (match ?x with _ => _ end) => destruct x
      | |- fatal _ (let '(_, _) := ?x in _) => destruct x
      end
    | apply fatal_bind;
      [ solve [frame; by try (intros w; by apply Steps_same_trace)]
      | | intros ? ]
    | apply fatal_never;
      solve [ repeat first [ exits_step
                           | intros w; apply exits_commandLoop ] ] ].
Qed.

End FatalMain.

Section FatalCause.
Context {St : Type} (lib : Datastore St) (env : Env).

Lemma Steps_fatalEvent : respects (Steps (fatalEvent env)) (mainBody lib env).
Proof.
  unfold mainBody, askBootstrap, loadKey, bootstrap, daemon.
  repeat first
    [ match goal with
      | |- respects _ (check ?err) =>
        first [ is_var err; destruct err as [?|] | destruct err eqn:? ];
        [apply respects_Fatal | apply respects_ret]
      end
    | frame_step ];
    try done; try (simpl; eauto using setupError).
  - intros w. by apply Steps_same_trace.
  - intros w. eapply Steps_mono; [| apply (Steps_any_line lib env)].
    intros e [text He]. by destruct e.
Qed.

(** A fatal log entry of a run reports an error of the set-up. *)
Lemma main_fatal_cause (w : World St) evs e :
  trace (worldOf (main lib env w)) = (trace w ++ evs)%list →
  LogFatal e ∈ evs → setupError env e.
Proof.
  intros Ht Hin.
  destruct (Steps_main_of lib env (fatalEvent env)) with (w := w)
    as (evs' & Ht' & Hf).
  - intros x Hx. by destruct x.
  - apply Steps_fatalEvent.
  - rewrite Ht in Ht'. apply app_inv_head in Ht' as <-.
    rewrite Forall_forall in Hf. apply (Hf _ Hin).
Qed.

End FatalCause.

(** *** What a run that goes on has done *)

Section Reaches.
Context {St : Type}.

Lemma reaches_later {A B} (R Q : relation (World St)) (m : M St A)
    (k : A → M St B) :
  (∀ w1 w2 w3, R w1 w2 → Q w2 w3 → Q w1 w3) →
  panics (λ _, False) m → respects R m → (∀ a, reaches Q (k a)) →
  reaches Q (bind m k).
Proof.
  intros Hc Hp Hr Hk w. unfold bind. specialize (Hr w).
  destruct (m w) as [a w1| |msg w1] eqn:E; [| done | by destruct (Hp _ _ _ E)].
  specialize (Hk a w1). simpl in Hr.
  destruct (k a w1); [| done |]; by eapply Hc.
Qed.

Lemma reaches_now {A B} (R Q : relation (World St)) (m : M St A)
    (k : A → M St B) :
  (∀ w1 w2 w3, Q w1 w2 → R w2 w3 → Q w1 w3) →
  reaches Q m → (∀ a, respects R (k a)) → reaches Q (bind m k).
Proof.
  intros Hc Hm Hk w. unfold bind. specialize (Hm w).
  destruct (m w) as [a w1| |msg w1]; [| done | done].
  specialize (Hk a w1). destruct (k a w1); [| done |]; by eapply Hc.
Qed.

Lemma reaches_emit (P : Event → Prop) e :
  P e → reaches (St := St) (Did P) (emit e).
Proof.
  intros He w. exists [e]. split; [done |]. exists e.
  split; [apply list_elem_of_here | done].
Qed.

Lemma Did_later P (w1 w2 w3 : World St) :
  Grows w1 w2 → Did P w2 w3 → Did P w1 w3.
Proof.
  intros (e1 & H1 & _) (e2 & H2 & e & Hin & He). exists (e1 ++ e2)%list.
  split; [by rewrite H2, H1, app_assoc |]. exists e.
  split; [apply elem_of_app; by right | done].
Qed.

Lemma Did_sooner P (w1 w2 w3 : World St) :
  Did P w1 w2 → Grows w2 w3 → Did P w1 w3.
Proof.
  intros (e1 & H1 & e & Hin & He) (e2 & H2 & _). exists (e1 ++ e2)%list.
  split; [by rewrite H2, H1, app_assoc |]. exists e.
  split; [apply elem_of_app; by left | done].
Qed.

Lemma Configured_later ns o (w1 w2 w3 : World St) :
  Grows w1 w2 → Configured ns o w2 w3 → Configured ns o w1 w3.
Proof. intros Hg [Hd Ho]. split; [by eapply Did_later | done]. Qed.

(** Lines 186-197: the options object is set up and handed to
    [crdt.New]. *)
Lemma reaches_configure {B} ns o (rest : M St B) :
  respects Grows rest → respects (Keeps options) rest →
  reaches (Configured ns o) (setOptions o ;; emit (CrdtNew ns o) ;; rest).
Proof.
  intros Hg Hk w. unfold bind, setOptions, emit. simpl.
  match goal with |- context [rest ?x] => set (w1 := x) end.
  specialize (Hg w1). specialize (Hk w1).
  destruct (rest w1) as [b w2| |msg w2]; simpl in Hg, Hk; [| done |];
    (split; [| by rewrite Hk]);
    destruct Hg as (evs & Ht & _); exists (CrdtNew ns o :: evs);
    (split; [rewrite Ht; simpl; by rewrite <- app_assoc |]);
    exists (CrdtNew ns o); (split; [apply list_elem_of_here | done]).
Qed.

End Reaches.

Section ReachesMain.
Context {St : Type} (lib : Datastore St) (env : Env).

Lemma Grows_commandLoop fuel : respects Grows (commandLoop lib env fuel).
Proof.
  intros w. eapply Steps_mono; [| apply (Steps_commandLoop lib env)]. done.
Qed.

Lemma Grows_setOptions o : respects (St := St) Grows (setOptions o).
Proof. intros w. by apply Steps_same_trace. Qed.

End ReachesMain.

(** Shows that a part of [main] only appends to the trace. *)
Ltac grows :=
  unfold Grows; frame; try done;
  first [ apply Grows_setOptions | intros ?; apply Grows_commandLoop ].

Section ReachesSetup.
Context {St : Type} (lib : Datastore St) (env : Env).

(** Unless it exits, [main] calls [ipfslite.SetupLibp2p] with the listen
    address of lines 57-59. *)
Lemma reaches_listen : reaches (Did (listenCall env)) (mainBody lib env).
Proof.
  unfold mainBody, askBootstrap, loadKey, bootstrap, daemon.
  repeat first
    [ apply (reaches_now Grows);
      [ apply Did_sooner | apply reaches_emit; by eexists | intros ?; grows ]
    | apply (reaches_later Grows); [apply Did_later | calm | grows | intros ?]
    | match goal with
      | |- reaches _ (let '(_, _) := ?x in _) => destruct x
      end ].
Qed.

(** Unless it exits, [main] calls [crdt.New] with the options object of
    lines 186-195, and nothing changes the object afterwards. *)
Lemma reaches_configured :
  reaches (Configured (NewKey env "crdt") (configure (crdt_DefaultOptions env)))
    (mainBody lib env).
Proof.
  unfold mainBody, askBootstrap, loadKey, bootstrap, daemon.
  repeat first
    [ apply reaches_configure;
      [ grows
      | frame; try done; intros ?; apply Keeps_options_commandLoop ]
    | apply (reaches_later Grows);
      [apply Configured_later | calm | grows | intros ?]
    | match goal with
      | |- reaches _ (let '(_, _) := ?x in _) => destruct x
      end ].
Qed.

(** A run of [main] that logs no fatal error has done what the body of
    [main] does whenever it returns or panics. *)
Lemma main_reaches (Q : relation (World St)) (w : World St) evs :
  (∀ w1 w2 w3, Q w1 w2 → Grows w2 w3 → Keeps options w2 w3 → Q w1 w3) →
  reaches Q (mainBody lib env) →
  trace (worldOf (main lib env w)) = (trace w ++ evs)%list →
  (∀ e, LogFatal e ∉ evs) →
  Q w (worldOf (main lib env w)).
Proof.
  intros Hc Hb Ht Hf. unfold main in *. specialize (Hb w).
  assert (∀ w1 : World St, Grows w1 (worldOf (runDeferred w1))) as Hg.
  { intros w1. eapply Steps_mono; [| apply (Steps_runDeferred env)]. done. }
  pose proof (Keeps_options_runDeferred (St := St)) as Hk.
  destruct (mainBody lib env w) as [a w1|c w1|msg w1] eqn:E.
  - by eapply Hc.
  - exfalso. destruct (fatal_mainBody lib env _ _ _ E) as (_ & evs' & e & He & _).
    simpl in Ht. rewrite He in Ht. apply app_inv_head in Ht as <-.
    apply (Hf e). apply elem_of_app. right. apply list_elem_of_here.
  - specialize (Hg w1). specialize (Hk w1).
    destruct (runDeferred w1); simpl in *; by eapply Hc.
Qed.

Lemma main_listens (w : World St) evs :
  trace (worldOf (main lib env w)) = (trace w ++ evs)%list →
  (∀ e, LogFatal e ∉ evs) →
  ∃ e, e ∈ evs ∧ listenCall env e.
Proof.
  intros Ht Hno.
  destruct (main_reaches (Did (listenCall env)) w evs) as (evs' & Ht' & H);
    [| apply reaches_listen | done | done |].
  - intros w1 w2 w3 H Hg _. by eapply Did_sooner.
  - rewrite Ht in Ht'. by apply app_inv_head in Ht' as <-.
Qed.

Lemma main_configures (w : World St) evs :
  trace (worldOf (main lib env w)) = (trace w ++ evs)%list →
  (∀ e, LogFatal e ∉ evs) →
  CrdtNew (NewKey env "crdt") (configure (crdt_DefaultOptions env)) ∈ evs ∧
  options (worldOf (main lib env w))
  = Some (configure (crdt_DefaultOptions env)).
Proof.
  intros Ht Hno.
  destruct (main_reaches
              (Configured (NewKey env "crdt")
                 (configure (crdt_DefaultOptions env))) w evs)
    as [(evs' & Ht' & e & Hin & <-) Ho];
    [| apply reaches_configured | done | done |].
  - intros w1 w2 w3 [Hd Ho] Hg Hk. split; [by eapply Did_sooner |].
    unfold Keeps in Hk. by rewrite Hk.
  - rewrite Ht in Ht'. by apply app_inv_head in Ht' as <-.
Qed.

End ReachesSetup.

(** ** The claims *)

(** C1 (amended).  The command loop offers [put] as its only write: on any
    line, the loop body never calls [crdt.Delete], and it calls [crdt.Put]
    only when the fields of the line are [put], a key and at least one
    word, with the key [ds.NewKey] makes of the second field and the
    remaining words joined by single spaces.  [crdt.Put] hands back an
    error or nil and no identifier: after a put that succeeds, the loop
    body has printed what the hooks print and the prompt, nothing else.  A
    line whose first field is no command, such as [delete k], only prints
    the prompt. *)
Theorem write_path_is_put_only {St} (lib : Datastore St) (env : Env)
    (text : string) (w : World St) :
  ∃ evs,
    trace (worldOf (loopBody lib env text w)) = (trace w ++ evs)%list ∧
    (∀ k, Crdt (OpDelete k) ∉ evs) ∧
    (∀ k v, Crdt (OpPut k v) ∈ evs →
       ∃ f1 w1 ws, Fields text = "put" :: f1 :: w1 :: ws ∧
                   k = NewKey env f1 ∧ v = GoStrings.Join (w1 :: ws) " ") ∧
    (∀ f1 w1 ws hooks s,
       Fields text = "put" :: f1 :: w1 :: ws →
       crdt_Put lib (NewKey env f1) (GoStrings.Join (w1 :: ws) " ") (store w)
       = (None, hooks, s) →
       printed evs
       = (printed (concat (runHook (options w) <$> hooks)) ++ ["> "])%list) ∧
    (∀ cmd rest,
       Fields text = cmd :: rest →
       cmd ∉ ["exit"; "quit"; "debug"; "list"; "get"; "put"] →
       evs = [Stdout "> "]).
Proof.
  destruct (Steps_loopBody lib env text w) as (evs & Ht & Hf).
  exists evs. rewrite Forall_forall in Hf. split; [done |].
  split; [| split; [| split]].
  - intros k Hk. apply (Hf _ Hk).
  - intros k v Hk. apply (Hf _ Hk).
  - intros f1 w1 ws hooks s Hfields Hput.
    rewrite (loopBody_put lib env text f1 w1 ws w Hfields) in Ht.
    cbv zeta in Ht. rewrite Hput in Ht. cbn [worldOf trace] in Ht.
    rewrite <- app_assoc in Ht. apply app_inv_head in Ht as <-.
    change (printed (Crdt ?op :: ?l)) with (printed l).
    unfold printed. by rewrite omap_app.
  - intros cmd rest Hfields Hcmd.
    rewrite (loopBody_unknown lib env text cmd rest w Hfields Hcmd) in Ht.
    cbn [worldOf trace] in Ht. by apply app_inv_head in Ht as <-.
Qed.

(** C1 (counterexample).  After [put k v], the line [delete k] reaches the
    datastore with no operation at all: the trace of datastore calls holds
    the put and the later get only, and the key still has its value. *)
Lemma delete_is_no_command :
  let w := worldOf (main Sample.lib (Sample.env ["globaldb"])
                      (Sample.world ["y"] ["put k v"; "delete k"; "get k"])) in
  dsOps (trace w) = [OpPut "/k" "v"; OpGet "/k"] ∧
  store w !! "/k" = Some "v" ∧
  drop 3 (printed (trace w))
  = ["Added: [/k] -> v" +:+ newline; "> "; "> ";
     "[/k] -> v" +:+ newline; "> "].
Proof. vm_compute. done. Qed.

(** C2 (on the engine modelled from the spec).  Two replicas that were
    built from the empty replica by successful [Apply] calls on deltas of
    one DAG store, in whatever order, and that have the same Applied Set
    have the same Materialized State: every key has the same value,
    priority, winning identifier and tombstone marker, or no state, on
    both. *)
Theorem replicas_converge (dag : gmap Engine.Id Engine.Delta)
    (r1 r2 : Engine.Replica) :
  Engine.Reachable dag r1 → Engine.Reachable dag r2 →
  Engine.applied r1 = Engine.applied r2 →
  Engine.state r1 = Engine.state r2.
Proof.
  intros H1 H2 Heq.
  destruct (EngineFacts.Reachable_Inv dag r1 H1) as (_ & HD1 & _).
  destruct (EngineFacts.Reachable_Inv dag r2 H2) as (_ & HD2 & _).
  apply map_eq. intros k. eapply EngineFacts.Desc_unique; [apply HD1 |].
  rewrite Heq. apply HD2.
Qed.

Lemma replicas_converge_witness :
  Engine.state (Engine.learnAll 3 Engine.skewed ["r"; "x"]
                  (Engine.mkReplica ∅ ∅ []))
  = Engine.state (Engine.learnAll 3 Engine.skewed ["x"; "r"]
                    (Engine.mkReplica ∅ ∅ [])).
Proof.
  apply (replicas_converge Engine.skewed).
  - apply EngineFacts.Reachable_learnAll, Engine.reach_empty.
  - apply EngineFacts.Reachable_learnAll, Engine.reach_empty.
  - vm_compute. reflexivity.
Defined.

(** The three deltas of [Engine.history] on one replica: the concurrent
    writes of [a] and [b] resolve to the value of the larger identifier; the
    removal [c] of what [a] wrote tombstones the key as long as [b] is not
    known. *)
Example concurrent_puts :
  Engine.state (Engine.learnAll 3 Engine.history ["a"; "b"]
                  (Engine.mkReplica ∅ ∅ [])) !! "k"
  = Some (Engine.mkKeyState "v2" 1 "b" false).
Proof. vm_compute. reflexivity. Qed.

Example delete_after_put :
  Engine.state (Engine.learnAll 3 Engine.history ["c"]
                  (Engine.mkReplica ∅ ∅ [])) !! "k"
  = Some (Engine.mkKeyState "v1" 1 "a" true).
Proof. vm_compute. reflexivity. Qed.

(** The order of arrival of the whole history does not show. *)
Example history_converges :
  Engine.state (Engine.learnAll 3 Engine.history ["a"; "c"; "b"]
                  (Engine.mkReplica ∅ ∅ []))
  = Engine.state (Engine.learnAll 3 Engine.history ["b"; "c"]
                    (Engine.mkReplica ∅ ∅ [])).
Proof. vm_compute. reflexivity. Qed.

(** A removal that names an anchor outside its causal past waits for it:
    on the replica that learns the anchor [x] after the removal [r], the
    removal takes effect when [x] arrives, as it did at once on the replica
    that knew [x] before. *)
Example anchors_outside_the_past :
  let r0 := Engine.learnAll 3 Engine.skewed ["r"] (Engine.mkReplica ∅ ∅ []) in
  let r1 := Engine.learnAll 3 Engine.skewed ["r"; "x"] (Engine.mkReplica ∅ ∅ []) in
  let r2 := Engine.learnAll 3 Engine.skewed ["x"; "r"] (Engine.mkReplica ∅ ∅ []) in
  Engine.state r0 !! "k" = Some (Engine.mkKeyState "v1" 2 "a" false) ∧
  Engine.waiting r0 = [("k", ["a"; "x"])] ∧
  Engine.applied r1 = Engine.applied r2 ∧
  Engine.state r1 !! "k" = Some (Engine.mkKeyState "v1" 2 "a" true) ∧
  Engine.state r2 !! "k" = Some (Engine.mkKeyState "v1" 2 "a" true) ∧
  Engine.waiting r1 = [] ∧ Engine.waiting r2 = [].
Proof. vm_compute. done. Qed.

(** C3 (the code at the failing input).  On the line [debug] the loop body
    prints the usage message and then panics on [fields[1]]: the loop does
    not reach the next prompt.  It is the only line on which the loop body
    indexes past the end of the fields. *)
Theorem debug_alone_panics {St} (lib : Datastore St) (env : Env) (w : World St) :
  loopBody lib env "debug" w =
  Panicked (IndexOutOfRange 1 1)
    (mkWorld (store w) (options w)
       (trace w ++ [Stdout ("debug <on/off/peers>" +:+ newline)])
       (cancelled w) (deferred w) (scans w) (lines w)) ∧
  (∀ text i n w', loopBody lib env text w = Panicked (IndexOutOfRange i n) w' →
                  Fields text = ["debug"]).
Proof.
  split; [by apply loopBody_debug_alone |].
  intros text i n w'. apply loopBody_index_panic.
Qed.

(** C4.  On a line whose first field is [get] or [list], and for a
    datastore whose [Get] and [Query] leave its state as it is, the loop
    body leaves the state of the datastore unchanged, and all it does is
    print and call [Get] or [Query]: no write reaches the datastore. *)
Theorem reads_leave_store_unchanged {St} (lib : Datastore St) (env : Env)
    (text cmd : string) (rest : list string) (w : World St) :
  (∀ k s, (crdt_Get lib k s).2 = s) →
  (∀ s, (crdt_Query lib s).2 = s) →
  Fields text = cmd :: rest →
  cmd = "get" ∨ cmd = "list" →
  store (worldOf (loopBody lib env text w)) = store w ∧
  ∃ evs, trace (worldOf (loopBody lib env text w)) = (trace w ++ evs)%list ∧
         Forall readEvent evs.
Proof.
  intros Hg Hq Hf Hc. split.
  - apply (loopBody_reads lib env (Keeps store) text cmd rest); try done.
    + intros k. by apply Keeps_store_Get.
    + by apply Keeps_store_Query.
  - apply (loopBody_reads lib env (Steps readEvent) text cmd rest); try done.
    + intros k. by apply Steps_Get.
    + by apply Steps_Query.
Qed.

Lemma reads_leave_store_unchanged_witness :
  let w := mkWorld ({[ "/k" := "v" ]} : Sample.St) None [] [] [] [] [] in
  store (worldOf (loopBody Sample.lib (Sample.env []) "get k" w))
  = store w ∧
  ∃ evs, trace (worldOf (loopBody Sample.lib (Sample.env []) "get k" w))
         = (trace w ++ evs)%list ∧ Forall readEvent evs.
Proof.
  apply (reads_leave_store_unchanged Sample.lib (Sample.env [])
           "get k" "get" ["k"]).
  - intros k s. simpl. unfold Sample.get. destruct (s !! k); reflexivity.
  - intros s. reflexivity.
  - vm_compute. reflexivity.
  - left. reflexivity.
Defined.

(** C5.  When [crdt.Put] returns an error on a [put] line, the loop body
    has called it once, prints [error: ] and the error's text, prints the
    prompt line and goes on with the loop: between the call and the
    report nothing else reaches the datastore. *)
Theorem put_failure_is_reported {St} (lib : Datastore St) (env : Env)
    (text f1 w1 : string) (ws : list string) (w : World St)
    (e : error) (hooks : list HookCall) (s : St) :
  Fields text = "put" :: f1 :: w1 :: ws →
  crdt_Put lib (NewKey env f1) (GoStrings.Join (w1 :: ws) " ") (store w)
  = (Some e, hooks, s) →
  ∃ w' evs,
    loopBody lib env text w = Ok true w' ∧
    store w' = s ∧
    trace w' = (trace w ++ evs)%list ∧
    dsOps evs
    = [OpPut (NewKey env f1) (GoStrings.Join (w1 :: ws) " ")] ∧
    printed evs
    = (printed (concat (runHook (options w) <$> hooks))
       ++ ["error: " +:+ e +:+ newline; "> " +:+ newline])%list.
Proof.
  intros Hf Hp. rewrite (loopBody_put lib env text f1 w1 ws w Hf).
  cbv zeta. rewrite Hp.
  eexists _, (Crdt (OpPut _ _) :: concat (runHook (options w) <$> hooks)
              ++ [Stdout ("error: " +:+ e +:+ newline);
                  Stdout ("> " +:+ newline)])%list.
  split; [reflexivity |]. split; [reflexivity |]. split; [| split].
  - cbn [trace]. by rewrite <- app_assoc.
  - change (dsOps (Crdt ?op :: ?l)) with (op :: dsOps l).
    by rewrite dsOps_app, dsOps_runHook.
  - change (printed (Crdt ?op :: ?l)) with (printed l).
    unfold printed. by rewrite omap_app.
Qed.

Lemma put_failure_is_reported_witness :
  ∃ w' evs,
    loopBody Sample.lib (Sample.env []) "put readonly  x y"
      (Sample.world [] []) = Ok true w' ∧
    store w' = ∅ ∧
    trace w' = ([] ++ evs)%list ∧
    dsOps evs = [OpPut "/readonly" "x y"] ∧
    printed evs
    = ([] ++ ["error: store: write failed" +:+ newline; "> " +:+ newline])%list.
Proof.
  apply (put_failure_is_reported Sample.lib (Sample.env [])
           "put readonly  x y" "readonly" "x" ["y"] (Sample.world [] [])
           "store: write failed" [] ∅).
  - vm_compute. reflexivity.
  - reflexivity.
Defined.

(** C6.  The program configures the rebroadcast interval to the constant
    [5 * time.Second], which is 5 000 000 000 nanoseconds, whatever default
    the library starts from.  In every run of [main], whatever the
    environment answers: a run that logs no fatal error does call
    [crdt.New], with the namespace [crdt] and the options object of lines
    186-195, and that object is the options object when the run ends; a
    fatal error is logged only for an error that a call of the set-up
    returned, so a set-up without errors always gets there; every options
    object handed to [crdt.New] has the interval of five seconds; the
    options object is at the end what it was at the start or what lines
    186-195 made it; and neither the bootstrap block, nor the command
    loop, nor a pass of a goroutine changes the options object. *)
Theorem rebroadcast_interval_is_fixed {St} (lib : Datastore St) (env : Env) :
  RebroadcastInterval (configure (crdt_DefaultOptions env)) = 5000000000 ∧
  (∀ w : World St,
     ∃ evs, trace (worldOf (main lib env w)) = (trace w ++ evs)%list ∧
            (∀ ns o, CrdtNew ns o ∈ evs →
                     RebroadcastInterval o = 5 * Second) ∧
            ((∀ e, LogFatal e ∉ evs) →
             CrdtNew (NewKey env "crdt") (configure (crdt_DefaultOptions env))
               ∈ evs ∧
             options (worldOf (main lib env w))
             = Some (configure (crdt_DefaultOptions env))) ∧
            (∀ e, LogFatal e ∈ evs → setupError env e)) ∧
  (∀ w : World St,
     options (worldOf (main lib env w)) = options w ∨
     options (worldOf (main lib env w))
     = Some (configure (crdt_DefaultOptions env))) ∧
  (∀ b (w : World St),
     options (worldOf (bootstrap env b w)) = options w) ∧
  (∀ fuel (w : World St),
     options (worldOf (commandLoop lib env fuel w)) = options w) ∧
  (∀ g (w : World St),
     options (worldOf (goroutineStep env g w)) = options w).
Proof.
  split; [reflexivity |]. split; [| split; [| split; [| split]]].
  - intros w. destruct (Steps_main lib env w) as (evs & Ht & Hf).
    exists evs. split; [done |]. rewrite Forall_forall in Hf.
    split; [| split].
    + intros ns o Hin. by destruct (Hf _ Hin) as [_ ->].
    + by apply main_configures.
    + intros e. by apply (main_fatal_cause lib env w).
  - intros w. apply (Configures_main lib env w).
  - intros b w. apply (Keeps_options_bootstrap env b w).
  - intros fuel w. apply (Keeps_options_commandLoop lib env fuel w).
  - intros g w. apply (Keeps_options_goroutineStep env g w).
Qed.

(** A run in which the set-up succeeds: [crdt.New] gets the options object
    with the interval of five seconds, and the object is still that at the
    end of the run, after a [put] and [exit]. *)
Lemma rebroadcast_interval_is_fixed_witness :
  let w := Sample.world ["y"] ["put k v"; "exit"] in
  let o := configure (crdt_DefaultOptions (Sample.env ["globaldb"])) in
  ∃ evs,
    trace (worldOf (main Sample.lib (Sample.env ["globaldb"]) w))
    = (trace w ++ evs)%list ∧
    CrdtNew "/crdt" o ∈ evs ∧
    RebroadcastInterval o = 5 * Second ∧
    options (worldOf (main Sample.lib (Sample.env ["globaldb"]) w)) = Some o.
Proof.
  intros w o.
  destruct (rebroadcast_interval_is_fixed Sample.lib (Sample.env ["globaldb"]))
    as (_ & Hrun & _).
  destruct (Hrun w) as (evs & Ht & Hall & Hdone & Hfatal).
  exists evs. split; [exact Ht |].
  assert (∀ e, LogFatal e ∉ evs) as Hno.
  { intros e He. apply Hfatal in He. inversion He; discriminate. }
  destruct (Hdone Hno) as [Hin Ho].
  split; [exact Hin |]. split; [exact (Hall _ _ Hin) | exact Ho].
Defined.

(** C7 (the code at the failing input).  The user answers [n] and then
    types [junk], which is no multiaddr: [main] panics on [*inf] after it
    has read the address, and [Bootstrap] is never called. *)
Theorem bootstrap_junk_address_panics :
  ∃ w, main Sample.lib (Sample.env ["globaldb"])
         (Sample.world ["n"; "junk"] ["list"])
       = Panicked NilDereference w ∧
       scans w = [] ∧
       omap (λ e, match e with Bootstrap l => Some l | _ => None end)
         (trace w) = [].
Proof. eexists. vm_compute. done. Qed.



(** C9.  On a line whose fields are [put], a key and the words [w1] to
    [wn] with n at least 1, the loop body makes one call of [crdt.Put]: the
    key is [ds.NewKey] of the second field, the value is the words joined
    by single spaces, and the datastore is left in the state that this call
    produces. *)
Theorem put_stores_joined_words {St} (lib : Datastore St) (env : Env)
    (text f1 w1 : string) (ws : list string) (w : World St) :
  Fields text = "put" :: f1 :: w1 :: ws →
  let k := NewKey env f1 in
  let v := GoStrings.Join (w1 :: ws) " " in
  store (worldOf (loopBody lib env text w))
  = (crdt_Put lib k v (store w)).2 ∧
  ∃ evs, trace (worldOf (loopBody lib env text w)) = (trace w ++ evs)%list ∧
         dsOps evs = [OpPut k v].
Proof.
  intros Hf k v. rewrite (loopBody_put lib env text f1 w1 ws w Hf).
  cbv zeta. fold k v.
  destruct (crdt_Put lib k v (store w)) as [[[e|] hooks] s];
    (split; [reflexivity |]); cbn [worldOf trace];
    rewrite <- app_assoc; eexists; (split; [reflexivity |]);
    rewrite dsOps_app;
    change (dsOps (Crdt ?op :: ?l)) with (op :: dsOps l);
    by rewrite dsOps_runHook.
Qed.

Lemma put_stores_joined_words_witness :
  let w := worldOf (loopBody Sample.lib (Sample.env []) "put  k a   b c "
                      (Sample.world [] [])) in
  (store w = {[ "/k" := "a b c" ]} ∧
   ∃ evs, trace w = ([] ++ evs)%list ∧ dsOps evs = [OpPut "/k" "a b c"]).
Proof.
  apply (put_stores_joined_words Sample.lib (Sample.env [])
           "put  k a   b c " "k" "a" ["b"; "c"] (Sample.world [] [])).
  vm_compute. reflexivity.
Defined.

(** The lines that C9 speaks of, for plain words: [put], a key and words
    joined by single spaces have these words as their fields. *)
Lemma put_line_fields (k w1 : string) (ws : list string) :
  Forall (λ s, isWord s = true) (k :: w1 :: ws) →
  Fields (GoStrings.Join ("put" :: k :: w1 :: ws) " ")
  = "put" :: k :: w1 :: ws.
Proof. intros H. apply Fields_Join. by constructor. Qed.

(** C10.  When [rand.Intn(1000)] answers within its range, every call of
    [SetupLibp2p] in a run of [main] listens on
    [/ip4/127.0.0.1/tcp/<port>] with the port 4000 plus that answer, a
    number from 4000 to 4999.  A run that logs no fatal error does make
    this call, on the root context; and a fatal error is logged only for an
    error that a call of the set-up returned. *)
Theorem listen_port_in_range {St} (lib : Datastore St) (env : Env)
    (w : World St) :
  0 ≤ rand_Intn env 1000 < 1000 →
  ∃ evs, trace (worldOf (main lib env w)) = (trace w ++ evs)%list ∧
    (∀ c priv l, SetupLibp2p c priv l ∈ evs →
       ∃ port, port = 4000 + rand_Intn env 1000 ∧ 4000 ≤ port ≤ 4999 ∧
               l = [NewMultiaddr env ("/ip4/127.0.0.1/tcp/" +:+ Itoa port)]) ∧
    ((∀ e, LogFatal e ∉ evs) →
     ∃ priv port,
       SetupLibp2p rootCtx priv
         [NewMultiaddr env ("/ip4/127.0.0.1/tcp/" +:+ Itoa port)] ∈ evs ∧
       port = 4000 + rand_Intn env 1000 ∧ 4000 ≤ port ≤ 4999) ∧
    (∀ e, LogFatal e ∈ evs → setupError env e).
Proof.
  intros Hr. destruct (Steps_main lib env w) as (evs & Ht & Hf).
  exists evs. split; [done |]. rewrite Forall_forall in Hf.
  split; [| split].
  - intros c priv l Hin. destruct (Hf _ Hin) as [_ ->].
    eexists. split; [reflexivity |]. split; [lia | done].
  - intros Hno.
    destruct (main_listens lib env w evs Ht Hno) as (e & Hin & priv & ->).
    exists priv, (4000 + rand_Intn env 1000).
    split; [done |]. split; [done | lia].
  - intros e. by apply (main_fatal_cause lib env w).
Qed.

Lemma listen_port_in_range_witness :
  let w := Sample.world ["y"] ["exit"] in
  0 ≤ 81 `mod` 1000 < 1000 ∧
  ∃ evs, trace (worldOf (main Sample.lib (Sample.env ["globaldb"]) w))
         = (trace w ++ evs)%list ∧
    (∀ c priv l, SetupLibp2p c priv l ∈ evs →
       ∃ port, port = 4000 + 81 `mod` 1000 ∧ 4000 ≤ port ≤ 4999 ∧
               l = [Sample.parseAddr ("/ip4/127.0.0.1/tcp/" +:+ Itoa port)]) ∧
    ∃ priv port,
      SetupLibp2p rootCtx priv
        [Sample.parseAddr ("/ip4/127.0.0.1/tcp/" +:+ Itoa port)] ∈ evs ∧
      port = 4000 + 81 `mod` 1000 ∧ 4000 ≤ port ≤ 4999.
Proof.
  intros w.
  assert (0 ≤ 81 `mod` 1000 < 1000) as Hr
    by (vm_compute; split; [discriminate | reflexivity]).
  split; [exact Hr |].
  destruct (listen_port_in_range Sample.lib (Sample.env ["globaldb"]) w Hr)
    as (evs & Ht & Hall & Hdone & Hfatal).
  exists evs. split; [exact Ht |]. split; [exact Hall |]. apply Hdone.
  intros e He. apply Hfatal in He. inversion He; discriminate.
Defined.

(** The call that the sample run makes: the random source answers 81. *)
Example listen_address_sample :
  SetupLibp2p rootCtx "priv" [Some "/ip4/127.0.0.1/tcp/4081"]
  ∈ trace (worldOf (main Sample.lib (Sample.env ["globaldb"])
                      (Sample.world ["y"] ["exit"]))).
Proof. vm_compute. set_solver. Qed.

(** ** Further properties of the program *)

(** *** What single passes of the loop do *)

Section Passes.
Context {St : Type} (lib : Datastore St) (env : Env).

Lemma say_say evs1 evs2 (w : World St) :
  say evs2 (say evs1 w) = say (evs1 ++ evs2) w.
Proof. unfold say. simpl. by rewrite <- app_assoc. Qed.

Lemma say_nil (w : World St) : say [] w = w.
Proof. destruct w. unfold say. simpl. by rewrite app_nil_r. Qed.

Lemma forEach_say {A} (f : A → list Event) (body : A → M St unit) l w :
  (∀ x w, body x w = Ok () (say (f x) w)) →
  forEach l body w = Ok () (say (concat (f <$> l)) w).
Proof.
  intros H. revert w. induction l as [|x l IH]; intros w.
  - by rewrite say_nil.
  - cbn [forEach]. unfold bind. rewrite H, IH, say_say.
    by rewrite fmap_cons, concat_cons.
Qed.

Lemma forEach_say_one {A} (f : A → Event) (body : A → M St unit) l w :
  (∀ x w, body x w = Ok () (say [f x] w)) →
  forEach l body w = Ok () (say (f <$> l) w).
Proof.
  intros H. rewrite (forEach_say (λ x, [f x])) by done.
  do 2 f_equal. induction l as [|x l IH]; [done |].
  by rewrite !fmap_cons, concat_cons, IH.
Qed.

Lemma printErr_say err (w : World St) :
  printErr err w = Ok () (say (errLines err) w).
Proof.
  unfold printErr, bind, Println, emit, say, errLines. simpl.
  by rewrite <- app_assoc.
Qed.

(** [list]: one call of [crdt.Query]; nil results end in a panic. *)
Lemma loopBody_list text rest (w : World St) :
  Fields text = "list" :: rest →
  loopBody lib env text w =
  let '(results, err, s) := crdt_Query lib (store w) in
  let w1 := say (Crdt OpQuery
                   :: match err with Some _ => errLines err | None => [] end)
              (withStore s w) in
  match results with
  | None => Panicked NilDereference w1
  | Some rs =>
    Ok true (say (concat (listLine err <$> rs) ++ [Stdout "> "]) w1)
  end.
Proof.
  intros Hf. unfold loopBody. rewrite Hf.
  unfold switch. cbn [String.eqb Ascii.eqb Bool.eqb orb].
  unfold bind at 1 2. unfold Query.
  destruct (crdt_Query lib (store w)) as [[results err] s].
  cbv zeta.
  set (w0 := mkWorld s _ _ _ _ _ _).
  assert ((bind (match err with Some _ => printErr err | None => ret () end)
             (λ _, ret ())) w0
          = Ok () (say (Crdt OpQuery
                   :: match err with Some _ => errLines err | None => [] end)
              (withStore s w))) as He.
  { unfold bind. destruct err as [e|].
    - rewrite printErr_say. unfold say, withStore, w0. simpl.
      by rewrite <- app_assoc.
    - by unfold say, withStore, w0. }
  unfold bind in He |- *.
  destruct (match err with Some _ => printErr err | None => ret () end w0)
    as [[] w1| |]; try done.
  injection He as ->.
  destruct results as [rs|]; [| reflexivity]. cbn [deref ret].
  rewrite (forEach_say (listLine err)).
  - by rewrite <- say_say.
  - intros r w'. unfold listLine. destruct (rError r).
    + apply printErr_say.
    + done.
Qed.

(** [get] with a key: one call of [crdt.Get]. *)
Lemma loopBody_get text f1 rest (w : World St) :
  Fields text = "get" :: f1 :: rest →
  loopBody lib env text w =
  let k := NewKey env f1 in
  let '(v, err, s) := crdt_Get lib k (store w) in
  Ok true
    (say (Crdt (OpGet k)
            :: match err with
               | Some _ => errLines err
               | None => [Stdout ("[" +:+ k +:+ "] -> " +:+ v +:+ newline);
                          Stdout "> "]
               end) (withStore s w)).
Proof.
  intros Hf. unfold loopBody. rewrite Hf.
  unfold switch. cbn [String.eqb Ascii.eqb Bool.eqb orb length Nat.ltb Nat.leb].
  change (index ("get" :: f1 :: rest) 1) with (ret (St := St) f1).
  unfold bind, ret, Get.
  destruct (crdt_Get lib (NewKey env f1) (store w)) as [[v [e|]] s].
  - rewrite printErr_say. unfold say, withStore, errLines. simpl.
    by rewrite <- app_assoc.
  - unfold say, withStore. simpl. by rewrite <- !app_assoc.
Qed.

(** [debug] with a sub-command. *)
Lemma loopBody_debug text st rest (w : World St) :
  Fields text = "debug" :: st :: rest →
  loopBody lib env text w =
  Ok true
    (say ((if String.eqb st "on" then [SetLogLevel "globaldb" "debug"]
           else if String.eqb st "off" then [SetLogLevel "globaldb" "error"]
           else if String.eqb st "peers"
                then concat (peerLines env <$> connectedPeers (Conns env))
                else []) ++ [Stdout "> "]) w).
Proof.
  intros Hf. unfold loopBody. rewrite Hf.
  unfold switch. cbn [String.eqb Ascii.eqb Bool.eqb orb length Nat.ltb Nat.leb].
  change (index ("debug" :: st :: rest) 1) with (ret (St := St) st).
  assert (debug env st w
          = Ok () (say (if String.eqb st "on" then [SetLogLevel "globaldb" "debug"]
           else if String.eqb st "off" then [SetLogLevel "globaldb" "error"]
           else if String.eqb st "peers"
                then concat (peerLines env <$> connectedPeers (Conns env))
                else []) w)) as Hd.
  { unfold debug. destruct (String.eqb st "on"); [done |].
    destruct (String.eqb st "off"); [done |].
    destruct (String.eqb st "peers"); [| by rewrite say_nil].
    apply forEach_say. intros p w'. unfold peerLines.
    destruct (AddrInfoToP2pAddrs env p) as [addrs [e|]]; [done |].
    by apply forEach_say_one. }
  unfold bind, ret. rewrite Hd. unfold Print, emit. simpl.
  unfold say. simpl. by rewrite <- app_assoc.
Qed.

End Passes.

Section Blanks.

Lemma decode_blankChar c s :
  blankChar c = true →
  DecodeRuneInString (String c s) = (byteZ c, 1%nat) ∧
  IsSpace (byteZ c) = true.
Proof.
  unfold blankChar. intros [Hlt Hsp]%andb_true_iff. split; [| done].
  unfold DecodeRuneInString, byteAt. simpl. by rewrite Hlt.
Qed.

(** Scanning over blanks closes the open field and opens no other. *)
Lemma scanFields_blank s cur :
  allChars blankChar s = true → scanFields s 0 false cur = flush cur.
Proof.
  revert cur. induction s as [|c s IH]; intros cur Hs; [done |].
  simpl in Hs. apply andb_true_iff in Hs as [Hc Hs].
  destruct (decode_blankChar c s Hc) as [Hd Hsp].
  cbn [scanFields]. rewrite Hd, Hsp. cbn [Nat.pred].
  rewrite scanFields_sp, IH by done. apply app_nil_r.
Qed.

End Blanks.

(** X1.  A line that is empty or made of ASCII white space only has no
    fields: the pass prints the prompt [> ] and nothing else, calls neither
    the datastore nor the logger, and the loop goes on. *)
Theorem blank_line_only_prompts {St} (lib : Datastore St) (env : Env)
    (text : string) (w : World St) :
  allChars blankChar text = true →
  loopBody lib env text w = Ok true (say [Stdout "> "] w).
Proof.
  intros H. unfold loopBody, Fields. by rewrite scanFields_blank.
Qed.

Lemma blank_line_only_prompts_witness :
  loopBody Sample.lib (Sample.env []) "    " (Sample.world [] ["get k"])
  = Ok true (say [Stdout "> "] (Sample.world [] ["get k"])).
Proof.
  apply (blank_line_only_prompts Sample.lib (Sample.env []) "    ").
  reflexivity.
Defined.

(** X2.  [exit] and [quit] end the loop at once: when the first field of
    the next line is one of them, the loop takes that line from the input
    and returns; it prints nothing, not even a prompt, calls nothing, and
    leaves the lines that follow unread. *)
Theorem exit_stops_the_loop {St} (lib : Datastore St) (env : Env)
    (text cmd : string) (rest more : list string) (fuel : nat)
    (w : World St) :
  Fields text = cmd :: rest → cmd = "exit" ∨ cmd = "quit" →
  lines w = text :: more →
  commandLoop lib env (S fuel) w =
  Ok () (mkWorld (store w) (options w) (trace w) (cancelled w) (deferred w)
           (scans w) more).
Proof.
  intros Hf Hc Hl. cbn [commandLoop]. unfold bind at 1. unfold Scan.
  rewrite Hl. unfold bind, loopBody. rewrite Hf.
  by destruct Hc as [-> | ->].
Qed.

Lemma exit_stops_the_loop_witness :
  commandLoop Sample.lib (Sample.env []) 3
    (Sample.world [] [" quit now"; "put k v"; "get k"])
  = Ok () (Sample.world [] ["put k v"; "get k"]).
Proof.
  apply (exit_stops_the_loop Sample.lib (Sample.env [])
           " quit now" "quit" ["now"] ["put k v"; "get k"] 2
           (Sample.world [] [" quit now"; "put k v"; "get k"])).
  - vm_compute. reflexivity.
  - right. reflexivity.
  - reflexivity.
Defined.

(** X3.  A command that lacks its arguments is answered with its usage:
    [get] without a key, and [put] with fewer than two further fields, print
    the usage line and a prompt line, make no call of the datastore and go
    on with the loop. *)
Theorem short_command_prints_usage {St} (lib : Datastore St) (env : Env)
    (text cmd : string) (rest : list string) (w : World St) :
  Fields text = cmd :: rest →
  cmd = "get" ∧ rest = [] ∨ cmd = "put" ∧ (length rest < 2)%nat →
  loopBody lib env text w =
  Ok true (say [Stdout ((if String.eqb cmd "get" then "get <key>"
                         else "put <key> <value>") +:+ newline);
                Stdout ("> " +:+ newline)] w).
Proof.
  intros Hf Hc. unfold loopBody. rewrite Hf.
  destruct Hc as [[-> ->] | [-> Hl]].
  - unfold switch, bind, Println, emit, say. simpl. by rewrite <- app_assoc.
  - destruct rest as [|f1 [|]]; [| | simpl in Hl; lia];
      unfold switch, bind, Println, emit, say; simpl; by rewrite <- app_assoc.
Qed.

Lemma short_command_prints_usage_witness :
  loopBody Sample.lib (Sample.env []) "put k" (Sample.world [] [])
  = Ok true (say [Stdout ("put <key> <value>" +:+ newline);
                  Stdout ("> " +:+ newline)] (Sample.world [] [])).
Proof.
  apply (short_command_prints_usage Sample.lib (Sample.env [])
           "put k" "put" ["k"] (Sample.world [] [])).
  - vm_compute. reflexivity.
  - right. split; [reflexivity | simpl; lia].
Defined.

(** X4.  [get] with a key calls [crdt.Get] once, on the key that
    [ds.NewKey] makes of the second field; further fields are ignored.
    When the call fails, the pass prints [error: ] with the error's text
    and a prompt line; otherwise it prints [[key] -> value] and the
    prompt.  Either way the loop goes on. *)
Theorem get_prints_value_or_error {St} (lib : Datastore St) (env : Env)
    (text f1 : string) (rest : list string) (w : World St)
    (v : string) (err : option error) (s : St) :
  Fields text = "get" :: f1 :: rest →
  crdt_Get lib (NewKey env f1) (store w) = (v, err, s) →
  loopBody lib env text w =
  Ok true
    (say (Crdt (OpGet (NewKey env f1))
            :: match err with
               | Some e => [Stdout ("error: " +:+ e +:+ newline);
                            Stdout ("> " +:+ newline)]
               | None => [Stdout ("[" +:+ NewKey env f1 +:+ "] -> " +:+ v
                                  +:+ newline);
                          Stdout "> "]
               end) (withStore s w)).
Proof.
  intros Hf Hg. rewrite (loopBody_get lib env text f1 rest w Hf).
  cbv zeta. rewrite Hg. by destruct err.
Qed.

Lemma get_prints_value_or_error_witness :
  loopBody Sample.lib (Sample.env []) "get k and more" (Sample.world [] [])
  = Ok true
      (say [Crdt (OpGet "/k");
            Stdout ("error: datastore: key not found" +:+ newline);
            Stdout ("> " +:+ newline)] (withStore ∅ (Sample.world [] []))).
Proof.
  apply (get_prints_value_or_error Sample.lib (Sample.env [])
           "get k and more" "k" ["and"; "more"] (Sample.world [] [])
           "" (Some "datastore: key not found") ∅).
  - vm_compute. reflexivity.
  - reflexivity.
Defined.

(** X5.  [list] calls [crdt.Query] once and, when it hands back results,
    writes them in the order in which they come: [[key] -> value] for a
    result without error; for a result that carries an error, the report of
    the error of the [Query] call itself ([<nil>] when the call succeeded)
    and a prompt line, after which the listing goes on.  A failed call that
    still hands back results is reported first.  The prompt ends the pass. *)
Theorem list_prints_every_result {St} (lib : Datastore St) (env : Env)
    (text : string) (rest : list string) (w : World St)
    (rs : list Result) (err : option error) (s : St) :
  Fields text = "list" :: rest →
  crdt_Query lib (store w) = (Some rs, err, s) →
  let report := [Stdout ("error: " +:+ showErr err +:+ newline);
                 Stdout ("> " +:+ newline)] in
  loopBody lib env text w =
  Ok true
    (say (Crdt OpQuery
            :: (match err with Some _ => report | None => [] end
                ++ concat ((λ r, match rError r with
                                 | Some _ => report
                                 | None => [Stdout ("[" +:+ rKey r +:+ "] -> "
                                                    +:+ rValue r +:+ newline)]
                                 end) <$> rs)
                ++ [Stdout "> "])%list) (withStore s w)).
Proof.
  intros Hf Hq report. rewrite (loopBody_list lib env text rest w Hf).
  rewrite Hq. cbv zeta. rewrite say_say. done.
Qed.

Lemma list_prints_every_result_witness :
  let w := mkWorld ({[ "/k" := "v" ]} : Sample.St) None [] [] [] [] [] in
  loopBody Sample.lib (Sample.env []) "list" w
  = Ok true
      (say (Crdt OpQuery
              :: ([] ++ concat
                          ((λ r, match rError r with
                                 | Some _ =>
                                   [Stdout ("error: " +:+ showErr None
                                            +:+ newline);
                                    Stdout ("> " +:+ newline)]
                                 | None =>
                                   [Stdout ("[" +:+ rKey r +:+ "] -> "
                                            +:+ rValue r +:+ newline)]
                                 end)
                             <$> [ {| rKey := "/k"; rValue := "v";
                                      rError := None |} ])
                     ++ [Stdout "> "])%list)
         (withStore {[ "/k" := "v" ]} w)).
Proof.
  apply (list_prints_every_result Sample.lib (Sample.env []) "list" []
           (mkWorld ({[ "/k" := "v" ]} : Sample.St) None [] [] [] [] [])
           [ {| rKey := "/k"; rValue := "v"; rError := None |} ] None
           {[ "/k" := "v" ]}).
  - vm_compute. reflexivity.
  - vm_compute. reflexivity.
Defined.

Section NilPanics.
Context {St : Type} (lib : Datastore St) (env : Env).

Lemma panics_index P fields i :
  P (IndexOutOfRange i (length fields)) →
  panics (St := St) P (index fields i).
Proof.
  intros H. unfold index.
  destruct (fields !! i); [apply panics_ret | by apply panics_panic].
Qed.

(** No command but [list] dereferences a pointer. *)
Lemma switch_no_nil cmd fields :
  cmd ≠ "list" →
  panics (λ e, e ≠ NilDereference) (switch lib env cmd fields).
Proof.
  intros Hc%String.eqb_neq. unfold switch. rewrite Hc.
  repeat first [apply panics_debug | by apply panics_index | panics_step].
Qed.

End NilPanics.

(** X6.  The one nil dereference of the command loop: a pass panics on a
    nil pointer exactly when the first field of the line is [list] and
    [crdt.Query] hands back nil results; by then the pass has reported the
    error of the call, if there is one, and nothing has been listed. *)
Theorem nil_panic_is_failed_list {St} (lib : Datastore St) (env : Env)
    (text : string) (w w' : World St) :
  loopBody lib env text w = Panicked NilDereference w' ↔
  ∃ rest err s,
    Fields text = "list" :: rest ∧
    crdt_Query lib (store w) = (None, err, s) ∧
    w' = say (Crdt OpQuery
                :: match err with
                   | Some e => [Stdout ("error: " +:+ e +:+ newline);
                                Stdout ("> " +:+ newline)]
                   | None => []
                   end) (withStore s w).
Proof.
  split.
  - intros H. destruct (Fields text) as [|cmd rest] eqn:Hf.
    { unfold loopBody in H. by rewrite Hf in H. }
    destruct (String.eqb_spec cmd "list") as [-> | Hc].
    + rewrite (loopBody_list lib env text rest w Hf) in H.
      destruct (crdt_Query lib (store w)) as [[[rs|] err] s]; [done |].
      injection H as <-. exists rest, err, s. by destruct err.
    + exfalso. unfold loopBody in H. rewrite Hf in H.
      assert (panics (λ e, e ≠ NilDereference)
                (flow <- switch lib env cmd (cmd :: rest) ;;
                 match flow with
                 | FallOut => Print "> " ;; ret true
                 | ContinueLoop => ret true
                 | ReturnMain => ret false
                 end)) as Hp.
      { apply panics_bind; [by apply switch_no_nil |].
        intros ?; repeat panics_step. }
      by apply (Hp _ _ _ H).
  - intros (rest & err & s & Hf & Hq & ->).
    rewrite (loopBody_list lib env text rest w Hf), Hq. by destruct err.
Qed.

(** X7.  [debug] with a sub-command never reaches the datastore and
    always goes on with the loop after the prompt.  [on] and [off] set the
    level of the logger [globaldb] to [debug] and to [error].  [peers]
    takes the connections in their order, one [AddrInfo] for each with the
    remote peer and its one remote address: it prints the addresses that
    [peer.AddrInfoToP2pAddrs] makes of it, or logs the warning when that
    fails, and goes on with the next.  Any other sub-command does nothing. *)
Theorem debug_subcommands {St} (lib : Datastore St) (env : Env)
    (text st : string) (rest : list string) (w : World St) :
  Fields text = "debug" :: st :: rest →
  ∃ evs,
    loopBody lib env text w = Ok true (say (evs ++ [Stdout "> "]) w) ∧
    dsOps evs = [] ∧
    (st = "on" → evs = [SetLogLevel "globaldb" "debug"]) ∧
    (st = "off" → evs = [SetLogLevel "globaldb" "error"]) ∧
    (st = "peers" →
     evs = concat ((λ c,
             match AddrInfoToP2pAddrs env
                     {| ID := RemotePeer c; Addrs := [RemoteMultiaddr c] |}
             with
             | (_, Some e) => [LogWarn e]
             | (addrs, None) => (λ a, Stdout (a +:+ newline)) <$> addrs
             end) <$> Conns env)) ∧
    (st ∉ ["on"; "off"; "peers"] → evs = []).
Proof.
  intros Hf. eexists. split; [by apply (loopBody_debug lib env text st rest) |].
  split; [| split; [| split; [| split]]].
  - destruct (String.eqb st "on"); [done |].
    destruct (String.eqb st "off"); [done |].
    destruct (String.eqb st "peers"); [| done].
    induction (connectedPeers (Conns env)) as [|p l IH]; [done |].
    rewrite fmap_cons, concat_cons, dsOps_app, IH, app_nil_r.
    unfold peerLines. destruct (AddrInfoToP2pAddrs env p) as [addrs [e|]];
      [done |].
    clear. by induction addrs.
  - by intros ->.
  - by intros ->.
  - intros ->. cbn [String.eqb Ascii.eqb Bool.eqb].
    unfold connectedPeers. rewrite <- list_fmap_compose. done.
  - intros Hst.
    repeat match goal with
           | |- context [String.eqb st ?s] =>
             destruct (String.eqb_spec st s) as [-> |];
               [exfalso; apply Hst; set_solver |]
           end.
    done.
Qed.

Lemma debug_subcommands_witness :
  ∃ evs,
    loopBody Sample.lib (crowded (Sample.env [])) "debug peers"
      (Sample.world [] [])
    = Ok true (say (evs ++ [Stdout "> "]) (Sample.world [] [])) ∧
    dsOps evs = [] ∧
    ("peers" = "on" → evs = [SetLogLevel "globaldb" "debug"]) ∧
    ("peers" = "off" → evs = [SetLogLevel "globaldb" "error"]) ∧
    ("peers" = "peers" →
     evs = concat ((λ c,
             match AddrInfoToP2pAddrs (crowded (Sample.env []))
                     {| ID := RemotePeer c; Addrs := [RemoteMultiaddr c] |}
             with
             | (_, Some e) => [LogWarn e]
             | (addrs, None) => (λ a, Stdout (a +:+ newline)) <$> addrs
             end) <$> Conns (crowded (Sample.env [])))) ∧
    ("peers" ∉ ["on"; "off"; "peers"] → evs = []).
Proof.
  apply (debug_subcommands Sample.lib (crowded (Sample.env []))
           "debug peers" "peers" [] (Sample.world [] [])).
  vm_compute. reflexivity.
Defined.

(** The lines that a sample node with three connections prints for
    [debug peers]. *)
Example debug_peers_sample :
  trace (worldOf (loopBody Sample.lib (crowded (Sample.env []))
                    "debug peers" (Sample.world [] [])))
  = [Stdout ("/ip4/10.0.0.1/tcp/4001/p2p/QmA" +:+ newline);
     LogWarn "invalid p2p multiaddr";
     Stdout ("/ip4/10.0.0.3/tcp/4001/p2p/QmC" +:+ newline);
     Stdout "> "].
Proof. vm_compute. reflexivity. Qed.

(** X8.  What was put is what [get] prints.  Over a datastore whose [Get]
    answers a key with the value of the [Put] that just succeeded on it, a
    [put] line followed by a [get] line with the same second field prints
    the key as [ds.NewKey] made it and the words of the value joined by
    single spaces. *)
Theorem put_then_get_prints_the_value {St} (lib : Datastore St) (env : Env)
    (t1 t2 f1 w1 : string) (ws rest : list string) (w : World St)
    (hooks : list HookCall) (s : St) :
  (∀ k v s0 hs s1, crdt_Put lib k v s0 = (None, hs, s1) →
                   ∃ s2, crdt_Get lib k s1 = (v, None, s2)) →
  Fields t1 = "put" :: f1 :: w1 :: ws →
  Fields t2 = "get" :: f1 :: rest →
  crdt_Put lib (NewKey env f1) (GoStrings.Join (w1 :: ws) " ") (store w)
  = (None, hooks, s) →
  ∃ wa wb evs,
    loopBody lib env t1 w = Ok true wa ∧
    loopBody lib env t2 wa = Ok true wb ∧
    trace wb = (trace wa ++ evs)%list ∧
    dsOps evs = [OpGet (NewKey env f1)] ∧
    printed evs = ["[" +:+ NewKey env f1 +:+ "] -> "
                   +:+ GoStrings.Join (w1 :: ws) " " +:+ newline; "> "].
Proof.
  intros Hlaw Hf1 Hf2 Hput.
  destruct (Hlaw _ _ _ _ _ Hput) as [s2 Hget].
  rewrite (loopBody_put lib env t1 f1 w1 ws w Hf1). cbv zeta. rewrite Hput.
  eexists _, _, _. split; [reflexivity |].
  rewrite (loopBody_get lib env t2 f1 rest _ Hf2). cbv zeta.
  cbn [store]. rewrite Hget.
  split; [reflexivity |]. split; [reflexivity |]. done.
Qed.

Lemma put_then_get_prints_the_value_witness :
  ∃ wa wb evs,
    loopBody Sample.lib (Sample.env []) "put k  a b" (Sample.world [] [])
    = Ok true wa ∧
    loopBody Sample.lib (Sample.env []) " get k" wa = Ok true wb ∧
    trace wb = (trace wa ++ evs)%list ∧
    dsOps evs = [OpGet (NewKey (Sample.env []) "k")] ∧
    printed evs = ["[" +:+ NewKey (Sample.env []) "k" +:+ "] -> "
                   +:+ GoStrings.Join ["a"; "b"] " " +:+ newline; "> "].
Proof.
  apply (put_then_get_prints_the_value Sample.lib (Sample.env [])
           "put k  a b" " get k" "k" "a" ["b"] [] (Sample.world [] [])
           [HookPut "/k" "a b"] {[ "/k" := "a b" ]}).
  - intros k v s0 hs s1. simpl. unfold Sample.put, Sample.get.
    destruct (String.eqb k "/readonly"); [discriminate |].
    intros [= _ <-]. exists (<[k:=v]> s0).
    by rewrite (lookup_insert_eq (M := gmap string) s0 k v).
  - vm_compute. reflexivity.
  - vm_compute. reflexivity.
  - vm_compute. reflexivity.
Defined.

(** *** What a pass returns *)

Section Yields.
Context {St : Type}.

Lemma yields_ret {A} (Q : A → World St → Prop) a :
  (∀ w, Q a w) → yields Q (ret a).
Proof. intros H w b w' [= <- <-]. apply H. Qed.

Lemma yields_bind {A B} (Q : B → World St → Prop) (m : M St A) k :
  (∀ a, yields Q (k a)) → yields Q (bind m k).
Proof.
  intros Hk w b w'. unfold bind.
  destruct (m w) as [a w1| |]; [apply Hk | done | done].
Qed.

Lemma yields_panic {A} (Q : A → World St → Prop) msg :
  yields Q (panic msg).
Proof. by intros w a w'. Qed.

End Yields.

Section Prompts.
Context {St : Type} (lib : Datastore St) (env : Env).

Lemma continue_after_Println :
  yields (St := St) afterPrompt (Println "> " ;; ret ContinueLoop).
Proof. intros w a w' [= <- <-] _. by eexists. Qed.

Lemma continue_after_printErr err :
  yields (St := St) afterPrompt (printErr err ;; ret ContinueLoop).
Proof.
  intros w a w'. unfold bind. rewrite printErr_say.
  intros [= <- <-] _. exists (trace w ++ [Stdout ("error: " +:+ showErr err +:+ newline)])%list.
  unfold say, errLines. simpl. by rewrite <- app_assoc.
Qed.

Lemma switch_afterPrompt cmd fields :
  yields afterPrompt (switch lib env cmd fields).
Proof.
  unfold switch.
  repeat first
    [ apply continue_after_Println | apply continue_after_printErr
    | apply yields_ret; by intros ?
    | apply yields_bind; intros ?
    | match goal with
      | |- yields _ (if ?b then _ else _) => destruct b
      | |- yields _ (match ?x with _ => _ end) => destruct x
      | |- yields _ (let '(_, _) := ?x in _) => destruct x
      end ].
Qed.

(** [return] is only reached by [exit] and [quit]. *)
Lemma switch_return cmd fields :
  yields (λ flow _, flow = ReturnMain → cmd = "exit" ∨ cmd = "quit")
    (switch lib env cmd fields).
Proof.
  unfold switch.
  destruct (String.eqb_spec cmd "exit") as [-> |];
    [apply yields_ret; auto |].
  destruct (String.eqb_spec cmd "quit") as [-> |];
    [apply yields_ret; auto |].
  cbn [orb].
  repeat first
    [ apply yields_ret; by intros ?
    | apply yields_bind; intros ?
    | match goal with
      | |- yields _ (if ?b then _ else _) => destruct b
      | |- yields _ (match ?x with _ => _ end) => destruct x
      | |- yields _ (let '(_, _) := ?x in _) => destruct x
      end ].
Qed.

Lemma loopBody_false text (w w' : World St) :
  loopBody lib env text w = Ok false w' →
  ∃ cmd rest, Fields text = cmd :: rest ∧ (cmd = "exit" ∨ cmd = "quit").
Proof.
  unfold loopBody. destruct (Fields text) as [|cmd rest]; [done |].
  intros H. exists cmd, rest. split; [done |].
  unfold bind in H.
  destruct (switch lib env cmd (cmd :: rest) w) as [flow w1| |] eqn:E;
    [| done | done].
  destruct flow; [done | done |].
  by apply (switch_return _ _ _ _ _ E).
Qed.

End Prompts.

(** X9.  Whenever a pass goes on with the loop, the last thing it wrote
    is a prompt: [> ], or the prompt line that follows a usage line or a
    reported error.  The next line is never read without one. *)
Theorem pass_ends_with_prompt {St} (lib : Datastore St) (env : Env)
    (text : string) (w w' : World St) :
  loopBody lib env text w = Ok true w' →
  ∃ t p, trace w' = (t ++ [Stdout p])%list ∧
         (p = "> " ∨ p = "> " +:+ newline).
Proof.
  unfold loopBody. destruct (Fields text) as [|cmd rest].
  { intros [= <-]. exists (trace w), "> ". auto. }
  unfold bind at 1.
  destruct (switch lib env cmd (cmd :: rest) w) as [flow w1| |] eqn:E;
    [| done | done].
  destruct flow.
  - intros [= <-]. exists (trace w1), "> ". auto.
  - intros [= <-].
    destruct (switch_afterPrompt lib env _ _ _ _ _ E eq_refl) as [t Ht].
    exists t, ("> " +:+ newline). auto.
  - done.
Qed.

Lemma pass_ends_with_prompt_witness :
  ∃ t p,
    trace (say [Stdout ("put <key> <value>" +:+ newline);
                Stdout ("> " +:+ newline)] (Sample.world [] []))
    = (t ++ [Stdout p])%list ∧
    (p = "> " ∨ p = "> " +:+ newline).
Proof.
  apply (pass_ends_with_prompt Sample.lib (Sample.env []) "put k"
           (Sample.world [] [])).
  vm_compute. reflexivity.
Defined.

(** *** What the loop never does *)

(** X10.  No command line ends the process through [os.Exit]: however
    many lines the loop reads, it returns or panics, and it never calls
    [logger.Fatal]. *)
Theorem loop_never_exits {St} (lib : Datastore St) (env : Env)
    (fuel : nat) (w : World St) :
  (∀ c w', commandLoop lib env fuel w ≠ Exited c w') ∧
  ∃ evs, trace (worldOf (commandLoop lib env fuel w)) = (trace w ++ evs)%list ∧
         ∀ e, LogFatal e ∉ evs.
Proof.
  split.
  - intros c w' H.
    by apply (exits_commandLoop lib env (λ _ _, False) fuel w c w').
  - destruct (Steps_any_line lib env fuel w) as (evs & Ht & Hf).
    exists evs. split; [done |]. intros e He.
    rewrite Forall_forall in Hf. by destruct (Hf _ He) as [text Hl].
Qed.

(** *** The deferred calls and the unread lines *)

Section KeepsLemmas.
Context {St B : Type} (f : World St → B) `{!Inert f}.

Lemma keeps_ret {A} (a : A) : keeps f (ret a).
Proof. by intros w. Qed.

Lemma keeps_bind {A C} (m : M St A) (k : A → M St C) :
  keeps f m → (∀ a, keeps f (k a)) → keeps f (bind m k).
Proof.
  intros Hm Hk w. unfold bind. specialize (Hm w).
  destruct (m w) as [a w'| |]; simpl in *; try done.
  by rewrite Hk.
Qed.

Lemma keeps_panic {A} msg : keeps f (panic (A := A) msg).
Proof. by intros w. Qed.

Lemma keeps_emit e : keeps f (emit e).
Proof. intros w. apply inert. Qed.

Lemma keeps_Fatal {A} e : keeps f (Fatal (A := A) e).
Proof. intros w. apply inert. Qed.

Lemma keeps_check err : keeps f (check err).
Proof. destruct err; [apply keeps_Fatal | apply keeps_ret]. Qed.

Lemma keeps_Scanln : keeps f Scanln.
Proof.
  intros w. unfold Scanln. destruct (scans w); [done | apply inert].
Qed.

Lemma keeps_setOptions o : keeps f (setOptions o).
Proof. intros w. apply inert. Qed.

Lemma keeps_cancel n : keeps f (cancel n).
Proof. intros w. apply inert. Qed.

Lemma keeps_index fields i : keeps f (index fields i).
Proof.
  unfold index. destruct (fields !! i); [apply keeps_ret | apply keeps_panic].
Qed.

Lemma keeps_deref {A} (p : option A) : keeps f (deref p).
Proof. destruct p; [apply keeps_ret | apply keeps_panic]. Qed.

Lemma keeps_forEach {A} (l : list A) (body : A → M St unit) :
  (∀ x, keeps f (body x)) → keeps f (forEach l body).
Proof.
  intros H. induction l as [|x l IH]; simpl; [apply keeps_ret |].
  apply keeps_bind; [apply H | intros _; exact IH].
Qed.

Lemma keeps_Put (lib : Datastore St) k v : keeps f (Put lib k v).
Proof.
  intros w. unfold Put.
  destruct (crdt_Put lib k v (store w)) as [[??]?]. apply inert.
Qed.

Lemma keeps_Get (lib : Datastore St) k : keeps f (Get lib k).
Proof.
  intros w. unfold Get.
  destruct (crdt_Get lib k (store w)) as [[??]?]. apply inert.
Qed.

Lemma keeps_Query (lib : Datastore St) : keeps f (Query lib).
Proof.
  intros w. unfold Query.
  destruct (crdt_Query lib (store w)) as [[??]?]. apply inert.
Qed.

End KeepsLemmas.

(** Takes a goal [keeps f m] apart along the structure of [m]. *)
Ltac keeps_step :=
  first
    [ match goal with |- Inert _ => apply _ end
    | apply keeps_ret | apply keeps_panic | apply keeps_emit
    | apply keeps_Fatal | apply keeps_check | apply keeps_Scanln
    | apply keeps_setOptions | apply keeps_cancel
    | apply keeps_index | apply keeps_deref
    | apply keeps_Put | apply keeps_Get | apply keeps_Query
    | apply keeps_forEach; intros ?
    | apply keeps_bind; [| intros ?]
    | match goal with
      | |- keeps _ (if ?b then _ else _) => destruct b eqn:?
      | |- keeps _ (match ?x with _ => _ end) => destruct x eqn:?
      | |- keeps _ (let '(_, _) := ?x in _) => destruct x eqn:?
      end ].

Section KeepsProgram.
Context {St : Type} (lib : Datastore St) (env : Env).

#[export] Instance deferred_inert : Inert (deferred (St := St)).
Proof. by intros s o t c sc w. Qed.

#[export] Instance lines_inert : Inert (lines (St := St)).
Proof. by intros s o t c sc w. Qed.

Lemma keeps_loopBody {B} (f : World St → B) `{!Inert f} text :
  keeps f (loopBody lib env text).
Proof.
  unfold loopBody, switch, debug, printErr, Println, Print.
  repeat keeps_step.
Qed.

Lemma keeps_deferred_commandLoop fuel :
  keeps deferred (commandLoop lib env fuel).
Proof.
  induction fuel as [|fuel IH]; cbn [commandLoop]; [apply keeps_ret |].
  apply keeps_bind.
  - intros w. unfold Scan. by destruct (lines w).
  - intros [text|]; [| apply keeps_ret].
    apply keeps_bind; [by apply keeps_loopBody |].
    intros [|]; [exact IH | apply keeps_ret].
Qed.

End KeepsProgram.

Section Defers.
Context {St : Type}.

Lemma defers_defer d : defers (St := St) [d] (defer d).
Proof. by intros w. Qed.

Lemma defers_keeps {A} (m : M St A) :
  keeps deferred m → panics (λ _, False) m → defers [] m.
Proof.
  intros Hk Hp w. specialize (Hk w).
  destruct (m w) as [a w'| |msg w'] eqn:E; simpl in *; [done | done |].
  by eapply Hp.
Qed.

Lemma leaves_keeps {A} (m : M St A) : keeps deferred m → leaves [] m.
Proof. intros Hk w. specialize (Hk w). by destruct (m w). Qed.

Lemma leaves_bind {A B} d1 d2 (m : M St A) (k : A → M St B) :
  defers d1 m → (∀ a, leaves d2 (k a)) → leaves (d2 ++ d1) (bind m k).
Proof.
  intros Hm Hk w. unfold bind. specialize (Hm w).
  destruct (m w) as [a w1| |]; [| done | done].
  specialize (Hk a w1).
  destruct (k a w1) as [b w2| |msg w2]; [| done |];
    by rewrite Hk, Hm, app_assoc.
Qed.

End Defers.

Section Cleanup.
Context {St : Type} (lib : Datastore St) (env : Env).

(** Whenever [main] returns or panics, the six calls are deferred. *)
Lemma leaves_mainBody : leaves deferredCalls (mainBody lib env).
Proof.
  assert (∃ ds, leaves ds (mainBody lib env) ∧ ds = deferredCalls)
    as (ds & H & <-); [| done].
  eexists. split.
  - unfold mainBody, askBootstrap, loadKey, bootstrap, daemon, Println, Print.
    repeat first
      [ eapply leaves_bind;
        [ solve [ apply defers_defer
                | apply defers_keeps;
                  [repeat keeps_step | repeat quiet_step] ]
        | intros ? ]
      | match goal with
        | |- leaves _ (let '(_, _) := ?x in _) => destruct x
        end ].
    apply leaves_keeps.
    repeat first [ keeps_step | intros w; apply keeps_deferred_commandLoop ].
  - reflexivity.
Qed.

Lemma setupEvent_lineEvent text e :
  lineEvent env text e → ¬ isCleanup e.
Proof. destruct e; simpl; tauto. Qed.

(** The body of [main] runs none of the deferred calls. *)
Lemma Steps_no_cleanup :
  respects (Steps (λ e, ¬ isCleanup e)) (mainBody lib env).
Proof.
  unfold mainBody, askBootstrap, loadKey, bootstrap, daemon.
  frame; try (simpl; tauto).
  - intros w. by apply Steps_same_trace.
  - intros w. eapply Steps_mono; [| apply (Steps_any_line lib env)].
    intros e [text He]. by eapply setupEvent_lineEvent.
Qed.

End Cleanup.

(** X11.  When [main] returns or panics, each of its six deferred calls
    runs once, in the reverse of the order of the [defer] statements:
    [psubCancel], [crdt.Close], [dht.Close], [h.Close], [store.Close],
    [cancel].  They are the last calls of the run, and none of them
    happens earlier. *)
Theorem cleanup_runs_in_reverse {St} (lib : Datastore St) (env : Env)
    (w w' : World St) :
  deferred w = [] →
  main lib env w = Ok () w' ∨ (∃ msg, main lib env w = Panicked msg w') →
  ∃ evs,
    trace w' = (trace w ++ evs
                ++ [Cancel psubCancelFn; Close "crdt"; Close "dht";
                    Close "h"; Close "store"; Cancel cancelFn])%list ∧
    Forall (λ e, ¬ isCleanup e) evs.
Proof.
  intros Hd Hm.
  pose proof (leaves_mainBody lib env w) as Hl.
  destruct (Steps_no_cleanup lib env w) as (evs & Ht & Hf).
  exists evs. split; [| done].
  unfold main in Hm. rewrite Hd, app_nil_r in Hl.
  destruct (mainBody lib env w) as [[] w1|c w1|msg w1]; simpl in Ht.
  - destruct (forEach_cleanup (deferred w1) w1) as (w2 & Hr & Ht2 & _).
    unfold runDeferred in Hm. rewrite Hr in Hm.
    destruct Hm as [[= <-] | [msg [=]]].
    by rewrite Ht2, Ht, Hl, <- app_assoc.
  - by destruct Hm as [| []].
  - destruct (forEach_cleanup (deferred w1) w1) as (w2 & Hr & Ht2 & _).
    unfold runDeferred in Hm. rewrite Hr in Hm.
    destruct Hm as [[=] | [msg' [= _ <-]]].
    by rewrite Ht2, Ht, Hl, <- app_assoc.
Qed.

Lemma cleanup_runs_in_reverse_witness :
  let w := Sample.world ["n"; "not-an-address"] ["put k v"] in
  ∃ evs,
    trace (worldOf (main Sample.lib (Sample.env ["globaldb"]) w))
    = (trace w ++ evs
       ++ [Cancel psubCancelFn; Close "crdt"; Close "dht";
           Close "h"; Close "store"; Cancel cancelFn])%list ∧
    Forall (λ e, ¬ isCleanup e) evs.
Proof.
  apply (cleanup_runs_in_reverse Sample.lib (Sample.env ["globaldb"])
           (Sample.world ["n"; "not-an-address"] ["put k v"])).
  - reflexivity.
  - right. exists NilDereference. vm_compute. reflexivity.
Defined.

(** *** A fatal error of the set-up *)

(** X12.  [main] ends the process through [os.Exit] only by
    [logger.Fatal] in its set-up: the status is 1, the fatal log entry is
    the last call of the run, no call of the datastore came before it, and
    none of the deferred calls runs: neither the stores nor the host are
    closed and no context is cancelled. *)
Theorem fatal_exit_skips_cleanup {St} (lib : Datastore St) (env : Env)
    (w w' : World St) (c : Z) :
  main lib env w = Exited c w' →
  c = 1 ∧
  ∃ evs e, trace w' = (trace w ++ evs ++ [LogFatal e])%list ∧
           dsOps evs = [] ∧ Forall (λ e, ¬ isCleanup e) evs.
Proof.
  intros Hm. unfold main in Hm.
  destruct (mainBody lib env w) as [[] w1|c1 w1|msg w1] eqn:E.
  - destruct (forEach_cleanup (deferred w1) w1) as (w2 & Hr & _).
    unfold runDeferred in Hm. by rewrite Hr in Hm.
  - injection Hm as <- <-.
    destruct (fatal_mainBody lib env _ _ _ E) as (-> & evs & e & Ht & Hf).
    split; [done |]. exists evs, e. split; [done |]. split.
    + clear Ht. induction Hf as [|x l Hx _ IH]; [done |].
      destruct x; first [done | exact IH].
    + eapply Forall_impl; [exact Hf |]. intros x Hx.
      destruct x; simpl in *; tauto.
  - destruct (forEach_cleanup (deferred w1) w1) as (w2 & Hr & _).
    unfold runDeferred in Hm. by rewrite Hr in Hm.
Qed.

Lemma fatal_exit_skips_cleanup_witness :
  let w := Sample.world ["y"] ["put k v"] in
  1 = 1 ∧
  ∃ evs e,
    trace (worldOf (main Sample.lib (locked (Sample.env ["globaldb"])) w))
    = (trace w ++ evs ++ [LogFatal e])%list ∧
    dsOps evs = [] ∧ Forall (λ e, ¬ isCleanup e) evs.
Proof.
  apply (fatal_exit_skips_cleanup Sample.lib
           (locked (Sample.env ["globaldb"]))
           (Sample.world ["y"] ["put k v"])).
  vm_compute. reflexivity.
Defined.

(** What the sample node whose data folder is locked does. *)
Example locked_folder_run :
  main Sample.lib (locked (Sample.env ["globaldb"]))
    (Sample.world ["y"] ["put k v"])
  = Exited 1
      (mkWorld ∅ None
         [Stdout ("Is this a bootstrap node? (y/n): " +:+ newline);
          SetMinRsaKeyBits 1024; SetLogLevel "*" "error";
          MkdirAll "/home/u/globaldb-example" 493;
          NewDatastore
            "/home/u/globaldb-example/instance-1700000000000000000";
          LogFatal "Cannot acquire directory lock"]
         [] [DeferCancel cancelFn] [] ["put k v"]).
Proof. vm_compute. reflexivity. Qed.

(** *** Daemon mode *)

Section Daemon.
Context {St : Type} (lib : Datastore St) (env : Env).

Lemma dsOps_setupEvent evs : Forall setupEvent evs → dsOps evs = [].
Proof.
  induction 1 as [|x l Hx _ IH]; [done |].
  destruct x; first [done | exact IH].
Qed.

Lemma dsOps_cleanup (l : list Deferred) : dsOps (cleanupEvent <$> l) = [].
Proof. induction l as [|[] l IH]; done. Qed.

Lemma Steps_daemon :
  Args env !! 1%nat = Some "daemon" →
  respects (Steps setupEvent) (mainBody lib env).
Proof.
  intros Ha. unfold mainBody, askBootstrap, loadKey, bootstrap, daemon.
  frame; try done.
  - intros w. by apply Steps_same_trace.
  - match goal with
    | H : bool_decide _ = false |- _ => by apply bool_decide_eq_false in H
    end.
Qed.

Lemma keeps_lines_daemon :
  Args env !! 1%nat = Some "daemon" →
  keeps lines (mainBody lib env).
Proof.
  intros Ha.
  unfold mainBody, askBootstrap, loadKey, bootstrap, daemon, Println, Print.
  repeat first [ keeps_step | by intros w ].
  match goal with
  | H : bool_decide _ = false |- _ => by apply bool_decide_eq_false in H
  end.
Qed.

End Daemon.

(** X13.  In daemon mode, when the second program argument is [daemon],
    the node serves no command: in a run of [main] the [bufio.Scanner] of
    the command loop takes no line, so that the lines that follow the
    answers to the two [fmt.Scanln] calls of the set-up stay unread, and
    there is no call of [crdt.Put], [Get] or [Query], however the set-up
    goes and whatever the input holds. *)
Theorem daemon_serves_no_commands {St} (lib : Datastore St) (env : Env)
    (w : World St) :
  Args env !! 1%nat = Some "daemon" →
  lines (worldOf (main lib env w)) = lines w ∧
  ∃ evs, trace (worldOf (main lib env w)) = (trace w ++ evs)%list ∧
         dsOps evs = [].
Proof.
  intros Ha.
  pose proof (keeps_lines_daemon lib env Ha w) as Hl.
  destruct (Steps_daemon lib env Ha w) as (evs & Ht & Hf).
  apply dsOps_setupEvent in Hf.
  unfold main.
  destruct (mainBody lib env w) as [[] w1|c w1|msg w1]; simpl in Hl, Ht.
  - destruct (forEach_cleanup (deferred w1) w1) as (w2 & Hr & Ht2 & Hl2).
    unfold runDeferred. rewrite Hr. simpl. split; [congruence |].
    exists (evs ++ (cleanupEvent <$> deferred w1))%list.
    rewrite Ht2, Ht, <- app_assoc. split; [done |].
    by rewrite dsOps_app, Hf, dsOps_cleanup.
  - split; [done |]. by exists evs.
  - destruct (forEach_cleanup (deferred w1) w1) as (w2 & Hr & Ht2 & Hl2).
    unfold runDeferred. rewrite Hr. simpl. split; [congruence |].
    exists (evs ++ (cleanupEvent <$> deferred w1))%list.
    rewrite Ht2, Ht, <- app_assoc. split; [done |].
    by rewrite dsOps_app, Hf, dsOps_cleanup.
Qed.

Lemma daemon_serves_no_commands_witness :
  let w := Sample.world ["y"] ["put k v"; "exit"] in
  lines (worldOf (main Sample.lib (Sample.env ["globaldb"; "daemon"]) w))
  = lines w ∧
  ∃ evs,
    trace (worldOf (main Sample.lib (Sample.env ["globaldb"; "daemon"]) w))
    = (trace w ++ evs)%list ∧
    dsOps evs = [].
Proof.
  apply (daemon_serves_no_commands Sample.lib
           (Sample.env ["globaldb"; "daemon"])
           (Sample.world ["y"] ["put k v"; "exit"])).
  reflexivity.
Defined.

Section KeyFile.
Context {St : Type} (lib : Datastore St) (env : Env).

Lemma Steps_keyEvent : respects (Steps (keyEvent env)) (mainBody lib env).
Proof.
  unfold mainBody, askBootstrap, loadKey, bootstrap, daemon.
  frame; try done.
  - simpl. unfold keyPathOf.
    repeat match goal with
           | H : _ = (_, _) |- _ => rewrite H; clear H; cbn [fst snd]
           end.
    done.
  - intros w. by apply Steps_same_trace.
  - intros w. eapply Steps_mono; [| apply (Steps_any_line lib env)].
    intros e [text He]. by destruct e.
Qed.

Lemma Steps_no_daemon :
  Args env !! 1%nat ≠ Some "daemon" →
  respects (Steps (λ e, ¬ daemonEvent e)) (mainBody lib env).
Proof.
  intros Ha. unfold mainBody, askBootstrap, loadKey, bootstrap, daemon.
  frame; try (simpl; tauto);
    try match goal with
        | H : bool_decide _ = true |- _ => by apply bool_decide_eq_true in H
        end.
  - intros w. by apply Steps_same_trace.
  - intros w. eapply Steps_mono; [| apply (Steps_any_line lib env)].
    intros e [text He]. destruct e as [| | | | | | | | | | | |[]| | | | | | | | | | | |];
      simpl in *; tauto.
Qed.

End KeyFile.

(** X14.  [main] writes no file but the key file, and never over an
    existing one: whenever it calls [os.WriteFile], the path is [key] in
    the data folder of this run, [os.Stat] reported that the file does not
    exist, the permission is 0400, and the content is the marshalled key
    that [crypto.GenerateKeyPair] made. *)
Theorem key_file_written_only_when_missing {St} (lib : Datastore St)
    (env : Env) (w : World St) :
  ∃ evs,
    trace (worldOf (main lib env w)) = (trace w ++ evs)%list ∧
    ∀ path data perm, WriteFile path data perm ∈ evs →
      path = filepath_Join env
               [filepath_Join env
                  [(homedir_Dir env).1; config;
                   "instance-" +:+ Itoa (UnixNano env)];
                "key"] ∧
      perm = 256 ∧
      os_Stat env path = StatNotExist ∧
      data = (MarshalPrivateKey env (GenerateKeyPair env).1).1.
Proof.
  destruct (Steps_main_of lib env (keyEvent env)) with (w := w)
    as (evs & Ht & Hf).
  - intros e He. by destruct e.
  - apply Steps_keyEvent.
  - exists evs. split; [done |]. intros path data perm Hin.
    rewrite Forall_forall in Hf. apply (Hf _ Hin).
Qed.

(** X15.  Outside daemon mode, when the second program argument is not
    [daemon], [main] neither starts the status goroutine nor waits for a
    signal. *)
Theorem no_daemon_without_argument {St} (lib : Datastore St) (env : Env)
    (w : World St) :
  Args env !! 1%nat ≠ Some "daemon" →
  ∃ evs,
    trace (worldOf (main lib env w)) = (trace w ++ evs)%list ∧
    (Go DaemonStatus ∉ evs) ∧ (SignalNotify ∉ evs) ∧ (WaitSignal ∉ evs).
Proof.
  intros Ha.
  destruct (Steps_main_of lib env (λ e, ¬ daemonEvent e)) with (w := w)
    as (evs & Ht & Hf).
  - intros e He. destruct e; simpl in *; tauto.
  - by apply Steps_no_daemon.
  - exists evs. split; [done |]. rewrite Forall_forall in Hf.
    repeat split; intros Hin; by apply (Hf _ Hin).
Qed.

Lemma no_daemon_without_argument_witness :
  let w := Sample.world ["y"] ["exit"] in
  ∃ evs,
    trace (worldOf (main Sample.lib (Sample.env ["globaldb"; "Daemon"]) w))
    = (trace w ++ evs)%list ∧
    (Go DaemonStatus ∉ evs) ∧ (SignalNotify ∉ evs) ∧ (WaitSignal ∉ evs).
Proof.
  apply (no_daemon_without_argument Sample.lib
           (Sample.env ["globaldb"; "Daemon"])
           (Sample.world ["y"] ["exit"])).
  discriminate.
Defined.

(** *** The loop and its input *)

Section LoopInput.
Context {St : Type} (lib : Datastore St) (env : Env).

Lemma commandLoop_reads fuel (w w' : World St) :
  (length (lines w) ≤ fuel)%nat →
  commandLoop lib env fuel w = Ok () w' →
  lines w' = [] ∨
  ∃ pre text cmd rest,
    lines w = (pre ++ text :: lines w')%list ∧
    Fields text = cmd :: rest ∧ (cmd = "exit" ∨ cmd = "quit").
Proof.
  revert w. induction fuel as [|fuel IH]; intros w Hlen.
  { intros [= <-]. left. destruct (lines w); [done | simpl in Hlen; lia]. }
  cbn [commandLoop]. unfold bind at 1. unfold Scan.
  destruct (lines w) as [|text more] eqn:Hl.
  { intros [= <-]. by left. }
  set (w1 := mkWorld _ _ _ _ _ _ more).
  pose proof (keeps_loopBody lib env lines text w1) as Hk.
  unfold bind. destruct (loopBody lib env text w1) as [[|] w2| |] eqn:E;
    [| | done | done]; simpl in Hk.
  - intros H. apply IH in H; [| rewrite Hk; simpl in *; lia].
    destruct H as [H | (pre & t & cmd & rest & Hp & Hf & Hc)]; [by left |].
    right. exists (text :: pre), t, cmd, rest.
    split; [| done]. by rewrite Hk in Hp; simpl in Hp; rewrite Hp.
  - intros [= <-]. right.
    destruct (loopBody_false lib env _ _ _ E) as (cmd & rest & Hf & Hc).
    exists [], text, cmd, rest. by rewrite Hk.
Qed.

End LoopInput.

(** X16.  The loop of [main] reads the lines of standard input one after
    the other and stops for two reasons only: when it returns, either no
    line is left, or the last line it took has [exit] or [quit] as its
    first field and the lines after that one are all unread. *)
Theorem loop_reads_until_exit {St} (lib : Datastore St) (env : Env)
    (w w' : World St) :
  commandLoop lib env (length (lines w)) w = Ok () w' →
  lines w' = [] ∨
  ∃ pre text cmd rest,
    lines w = (pre ++ text :: lines w')%list ∧
    Fields text = cmd :: rest ∧ (cmd = "exit" ∨ cmd = "quit").
Proof. by apply commandLoop_reads. Qed.

Lemma loop_reads_until_exit_witness :
  let w := Sample.world [] ["put k v"; ""; "quit"; "get k"] in
  let w' := worldOf (commandLoop Sample.lib (Sample.env [])
                       (length (lines w)) w) in
  lines w' = [] ∨
  ∃ pre text cmd rest,
    lines w = (pre ++ text :: lines w')%list ∧
    Fields text = cmd :: rest ∧ (cmd = "exit" ∨ cmd = "quit").
Proof.
  apply (loop_reads_until_exit Sample.lib (Sample.env [])
           (Sample.world [] ["put k v"; ""; "quit"; "get k"])).
  vm_compute. reflexivity.
Defined.
